(** * Incremental change polling of the multi-instance gerrit client

    A shallow embedding of [prow/gerrit/client/client.go]: the handler
    registry ([Client]), credential rotation ([authenticateOnce]),
    reconfiguration ([UpdateClients]) and the per-project poller
    ([QueryChangesForProject]) with its classification of changes; then
    the rest of the client: [NewClient], [Client.QueryChanges], the targeted
    operations ([GetChange], [ChangeExist], [SetReview],
    [GetBranchRevision], [Account]), the projects flag and
    [LastSyncState.DeepCopy].  [Authenticate], [ApplyGlobalConfig] and the
    round tripper (files, goroutines and HTTP plumbing) are not modelled.

    Conventions of the embedding.
    - [time.Time] and [gerrit.Timestamp] are instants on one time line and
      are integers ([Z], nanoseconds); [t.After(u)] is [u < t] and
      [t.Before(u)] is [t < u].
    - Go's [int] is a 64-bit signed integer: arithmetic on it is wrapped by
      [wrap_int].
    - A Go pointer that the code dereferences is an [option]; dereferencing
      [None] is a panic, recorded in the [outcome].
    - The unbounded [for] loop of the poller takes a fuel argument, the
      largest number of pages it may request; [OutOfFuel] is not a result
      of the Go code.
    - The gerrit services of a handler (go-gerrit is a third-party library)
      are an interface, [Gerrit], over an abstract gateway state.
    - Go iterates over a map in an unspecified order: functions that range
      over a map take the order of the iteration as a list.
    - The read-write lock of the registry is left out: each operation is
      modelled as it runs while holding the lock.
    - Logging and the prometheus counters do not influence any value that is
      returned and are left out. *)

From Stdlib Require Import ZArith Lia Ascii.
From stdpp Require Import base tactics option list strings gmap fin_maps sorting.

Local Open Scope Z_scope.

(** ** Time stamps and machine integers *)

Abbreviation Timestamp := Z (only parsing).

(** [t.After(u)] *)
Definition After (t u : Timestamp) : bool := u <? t.

(** [t.Before(u)] *)
Definition Before (t u : Timestamp) : bool := t <? u.

(** [parseStamp] returns the [time.Time] inside a [gerrit.Timestamp]. *)
Definition parseStamp (value : Timestamp) : Timestamp := value.

Definition wrap_int (z : Z) : Z := (z + 2 ^ 63) mod 2 ^ 64 - 2 ^ 63.

(** ** Constants *)

Definition Merged : string := "MERGED".
Definition New : string := "NEW".

(** ** Data of the review service *)

(** [gerrit.AccountInfo], identified by the account name. *)
Abbreviation AccountInfo := string (only parsing).

Record RevisionInfo := {
  rev_Created : Timestamp;
  rev_Number : Z;
}.

Record ChangeMessageInfo := {
  Author : AccountInfo;
  Date : Timestamp;
  Message : string;
  RevisionNumber : Z;
}.

Record CommentInfo := {
  c_Author : AccountInfo;
  c_Updated : option Timestamp;      (* *Timestamp *)
  c_Message : string;
  PatchSet : Z;
}.

Record ChangeInfo := {
  ID : string;
  Number : Z;
  Status : string;
  Updated : Timestamp;
  Submitted : option Timestamp;      (* *Timestamp *)
  CurrentRevision : string;
  Revisions : gmap string RevisionInfo;
  Messages : list ChangeMessageInfo;
}.

Definition with_Messages (change : ChangeInfo) (ms : list ChangeMessageInfo) : ChangeInfo :=
  {| ID := ID change; Number := Number change; Status := Status change;
     Updated := Updated change; Submitted := Submitted change;
     CurrentRevision := CurrentRevision change; Revisions := Revisions change;
     Messages := ms |}.

Record QueryChangeOptions := {
  Query : list string;
  AdditionalFields : list string;
  Limit : Z;
  Start : Z;
}.

(** [config.GerritQueryFilter] *)
Record GerritQueryFilter := {
  Branches : list string;
  ExcludedBranches : list string;
}.

(** ** Errors, panics and outcomes *)

#[warnings="-register-all"]
Inductive error :=
| ErrGerrit (msg : string)
    (* an error value made by the gerrit library *)
| ErrResponseBody (err : error) (body : string)
    (* "%w, response body: %q" *)
| ErrInstanceNotFound (instance : string)
    (* "instance handler for %q not found, ..." *)
| ErrProjectNotRegistered (project instance : string)
    (* "project %q from instance %q not registered in gerrit handler, ..." *)
| ErrQueryFailed (project instance : string) (err : error)
    (* "failed to query changes for project %q of %q instance: %v" *)
| ErrAggregate (errs : list error).
    (* utilerrors.NewAggregate *)

Inductive panic :=
| NilSubmitted          (* *change.Submitted on a nil pointer *)
| NilCommentListing     (* *out on a nil pointer *)
| NilCommentUpdated.    (* *c.Updated on a nil pointer *)

Inductive outcome (A : Type) :=
| Returns (a : A)
| Panics (p : panic)
| OutOfFuel.
Arguments Returns {A} a.
Arguments Panics {A} p.
Arguments OutOfFuel {A}.

(** [gerrit.Response]: the body text of the HTTP response it wraps, when it
    wraps one ([resp.Response != nil]). *)
Abbreviation Response := (option string) (only parsing).

(** [responseBodyError] returns the error with the response body text
    appended if there is any. *)
Definition responseBodyError (err : error) (resp : option Response) : error :=
  match resp with
  | None | Some None => err
  | Some (Some b) => ErrResponseBody err b
  end.

(** [utilerrors.NewAggregate]: nil for an empty list. *)
Definition NewAggregate (errs : list error) : option error :=
  match errs with
  | [] => None
  | _ => Some (ErrAggregate errs)
  end.

(** ** The gateway

    The capabilities of one gerrit client that the code uses
    ([gerritAuthentication], [gerritChange]) and its constructor
    [gerrit.NewClient], over the state [G] of the client.  Every call may
    change that state. *)

Abbreviation QueryReply :=
  (option (list ChangeInfo) * option Response * option error)%type (only parsing).
Abbreviation CommentsReply :=
  (option (gmap string (list CommentInfo)) * option Response * option error)%type
  (only parsing).

Class Gerrit (G : Type) := {
  NewGerritClient : string → error + G;
  SetCookieAuth : string → string → G → G;
  QueryChanges : QueryChangeOptions → G → QueryReply * G;
  ListChangeComments : string → G → CommentsReply * G;
}.

(** ** Sorting: [sort.SliceStable]

    The Go library's stable sort, by its contract: a stable insertion sort
    for the order [less].  An element moves to the right only past the
    elements that are less than it.  For an order that compares keys, every
    stable sort returns the same list ([SliceStable_unique]). *)

Section SliceStable.
Context {A : Type} (less : A → A → bool).

Fixpoint insertStable (x : A) (l : list A) : list A :=
  match l with
  | [] => [x]
  | y :: l' => if less y x then y :: insertStable x l' else x :: y :: l'
  end.

Fixpoint SliceStable (l : list A) : list A :=
  match l with
  | [] => []
  | x :: l' => insertStable x (SliceStable l')
  end.
End SliceStable.

(** ** The poller *)

Section Poller.
Context {G : Type} `{!Gerrit G}.

(** The message that a patchset-level comment becomes. *)
Definition messageOfComment (c : CommentInfo) (updated : Timestamp) : ChangeMessageInfo :=
  {| Author := c_Author c; Date := updated;
     Message := c_Message c; RevisionNumber := PatchSet c |}.

(** The loop [for _, c := range comments] of [injectPatchsetMessages]:
    the messages and the flag [changed] after it, or [None] when
    [*c.Updated] is a nil dereference. *)
Fixpoint appendComments (comments : list CommentInfo)
    (messages : list ChangeMessageInfo) (changed : bool)
    : option (list ChangeMessageInfo * bool) :=
  match comments with
  | [] => Some (messages, changed)
  | c :: comments' =>
      match c_Updated c with
      | None => None
      | Some updated =>
          appendComments comments' (messages ++ [messageOfComment c updated]) true
      end
  end.

Definition messageLess (a b : ChangeMessageInfo) : bool := Before (Date a) (Date b).

(** [injectPatchsetMessages]: the change after the call (it is updated in
    place) and the error returned. *)
Definition injectPatchsetMessages (change : ChangeInfo) (g : G)
    : outcome (ChangeInfo * option error) * G :=
  let '(out, _, err, g') := ListChangeComments (ID change) g in
  match err with
  | Some e => (Returns (change, Some e), g')
  | None =>
      match out with
      | None => (Panics NilCommentListing, g')
      | Some outer =>
          match outer !! "/PATCHSET_LEVEL" with
          | None => (Returns (change, None), g')
          | Some comments =>
              match appendComments comments (Messages change) false with
              | None => (Panics NilCommentUpdated, g')
              | Some (messages, changed) =>
                  let messages' :=
                    if changed then SliceStable messageLess messages else messages in
                  (Returns (with_Messages change messages', None), g')
              end
          end
      end
  end.

(** The loop over [changeMessages] with its [break]: the value of
    [newMessages] after it. *)
Fixpoint newMessages (lastUpdate : Timestamp) (rev : RevisionInfo)
    (changeMessages : list ChangeMessageInfo) : bool :=
  match changeMessages with
  | [] => false
  | message :: rest =>
      if RevisionNumber message =? rev_Number rev then
        if After (parseStamp (Date message)) lastUpdate then true
        else newMessages lastUpdate rev rest
      else newMessages lastUpdate rev rest
  end.

(** The [switch change.Status] of the poller, for a change that was
    updated after [lastUpdate]: the value of [pending] after it. *)
Definition classify (lastUpdate : Timestamp) (change : ChangeInfo)
    (pending : list ChangeInfo) (g : G) : outcome (list ChangeInfo) * G :=
  if String.eqb (Status change) Merged then
    match Submitted change with
    | None => (Panics NilSubmitted, g)
    | Some submitted =>
        if negb (After (parseStamp submitted) lastUpdate) then (Returns pending, g)
        else (Returns (pending ++ [change]), g)
    end
  else if String.eqb (Status change) New then
    match Revisions change !! CurrentRevision change with
    | None => (Returns pending, g)
    | Some rev =>
        let created := parseStamp (rev_Created rev) in
        match injectPatchsetMessages change g with
        | (Returns (change', _), g') =>
            let found := newMessages lastUpdate rev (Messages change') in
            if negb found && negb (After created lastUpdate) then (Returns pending, g')
            else (Returns (pending ++ [change']), g')
        | (Panics p, g') => (Panics p, g')
        | (OutOfFuel, g') => (OutOfFuel, g')
        end
    end
  else (Returns pending, g).

(** How the loop over a page ends: it falls through to the next page, or
    the function returns [pending]. *)
Inductive pageEnd := NextPage | Return.

(** The loop [for _, change := range *changes]. *)
Fixpoint rangeChanges (lastUpdate : Timestamp) (changes : list ChangeInfo)
    (pending : list ChangeInfo) (g : G)
    : outcome (pageEnd * list ChangeInfo) * G :=
  match changes with
  | [] => (Returns (NextPage, pending), g)
  | change :: rest =>
      let updated := parseStamp (Updated change) in
      if negb (After updated lastUpdate) then (Returns (Return, pending), g)
      else
        match classify lastUpdate change pending g with
        | (Returns pending', g') => rangeChanges lastUpdate rest pending' g'
        | (Panics p, g') => (Panics p, g')
        | (OutOfFuel, g') => (OutOfFuel, g')
        end
  end.

Definition pageOptions (opt : QueryChangeOptions) (rateLimit start : Z)
    : QueryChangeOptions :=
  {| Query := Query opt; AdditionalFields := AdditionalFields opt;
     Limit := rateLimit; Start := start |}.

(** The paging loop [for { ... }] of [QueryChangesForProject], from the
    state ([start], [pending]). *)
Fixpoint queryLoop (fuel : nat) (opt : QueryChangeOptions) (lastUpdate : Timestamp)
    (rateLimit start : Z) (pending : list ChangeInfo) (g : G)
    : outcome (list ChangeInfo * option error) * G :=
  match fuel with
  | O => (OutOfFuel, g)
  | S fuel' =>
      let '(changes, resp, err, g1) := QueryChanges (pageOptions opt rateLimit start) g in
      match err with
      | Some e => (Returns ([], Some (responseBodyError e resp)), g1)
      | None =>
          match changes with
          | None | Some [] => (Returns (pending, None), g1)
          | Some page =>
              let start' := wrap_int (start + Z.of_nat (length page)) in
              match rangeChanges lastUpdate page pending g1 with
              | (Returns (NextPage, pending'), g2) =>
                  queryLoop fuel' opt lastUpdate rateLimit start' pending' g2
              | (Returns (Return, pending'), g2) => (Returns (pending', None), g2)
              | (Panics p, g2) => (Panics p, g2)
              | (OutOfFuel, g2) => (OutOfFuel, g2)
              end
          end
      end
  end.

Definition projectQuery (project : string) (additionalFilters : list string)
    : QueryChangeOptions :=
  {| Query := [String.concat "+" (additionalFilters ++ ["project:" +:+ project])];
     AdditionalFields :=
       ["CURRENT_REVISION"; "CURRENT_COMMIT"; "CURRENT_FILES"; "MESSAGES"];
     Limit := 0; Start := 0 |}.

(** [gerritInstanceHandler.QueryChangesForProject], on the gateway of the
    handler. *)
Definition handlerQueryChangesForProject (fuel : nat) (project : string)
    (lastUpdate : Timestamp) (rateLimit : Z) (additionalFilters : list string) (g : G)
    : outcome (list ChangeInfo * option error) * G :=
  queryLoop fuel (projectQuery project additionalFilters) lastUpdate rateLimit 0 [] g.

End Poller.

(** ** Handlers and the registry *)

(** [queryStringsFromQueryFilter] *)
Definition queryStringsFromQueryFilter (filters : option GerritQueryFilter) : list string :=
  match filters with
  | None => []
  | Some filters =>
      let branchFilter := (λ br, "branch:" +:+ br) <$> Branches filters in
      let res :=
        match branchFilter with
        | [] => []
        | _ => ["(" +:+ String.concat "+OR+" branchFilter +:+ ")"]
        end in
      let excludedBranchFilter := (λ br, "-branch:" +:+ br) <$> ExcludedBranches filters in
      match excludedBranchFilter with
      | [] => res
      | _ => res ++ ["(" +:+ String.concat "+AND+" excludedBranchFilter +:+ ")"]
      end
  end.

(** [gerritInstanceHandler]: the service fields of a handler are the
    services of one gerrit client, whose state is [gc]. *)
Record gerritInstanceHandler (G : Type) := {
  instance : string;
  projects : gmap string (option GerritQueryFilter);
  gc : G;
}.
Arguments instance {G} _.
Arguments projects {G} _.
Arguments gc {G} _.

Definition with_projects {G} (h : gerritInstanceHandler G)
    (ps : gmap string (option GerritQueryFilter)) : gerritInstanceHandler G :=
  {| instance := instance h; projects := ps; gc := gc h |}.

Definition with_gc {G} (h : gerritInstanceHandler G) (g : G) : gerritInstanceHandler G :=
  {| instance := instance h; projects := projects h; gc := g |}.

(** [Client]: [authentication] reads the credential from the environment
    [Env] (a file, in [Authenticate]). *)
Record Client (G Env : Type) := {
  handlers : gmap string (gerritInstanceHandler G);
  accounts : gmap string AccountInfo;
  authentication : option (Env → string * option error);
  previousToken : string;
}.
Arguments handlers {G Env} _.
Arguments accounts {G Env} _.
Arguments authentication {G Env} _.
Arguments previousToken {G Env} _.

(** [LastSyncState]: instance, then project, to the time of the last sync. *)
Abbreviation LastSyncState := (gmap string (gmap string Z)) (only parsing).

Section Registry.
Context {G Env : Type} `{!Gerrit G}.

Definition with_handlers (c : Client G Env)
    (hs : gmap string (gerritInstanceHandler G)) : Client G Env :=
  {| handlers := hs; accounts := accounts c;
     authentication := authentication c; previousToken := previousToken c |}.

(** [authenticateOnce], called with an authentication function in place
    (as [Authenticate] does); [env] is what that function reads. *)
Definition authenticateOnce (env : Env) (c : Client G Env) : option (Client G Env) :=
  match authentication c with
  | None => None
  | Some auth =>
      let '(current, err) := auth env in
      (* err != nil is logged here *)
      if String.eqb current (previousToken c) then Some c
      else
        Some {| handlers :=
                  (λ handler, with_gc handler (SetCookieAuth "o" current (gc handler)))
                    <$> handlers c;
                accounts := accounts c;
                authentication := authentication c;
                previousToken := current |}
  end.

(** The loop [for instance := range instances] of [UpdateClients];
    [order] lists the entries of [instances] as the loop visits them. *)
Fixpoint updateHandlers
    (order : list (string * gmap string (option GerritQueryFilter)))
    (old newHandlers : gmap string (gerritInstanceHandler G)) (errs : list error)
    : gmap string (gerritInstanceHandler G) * list error :=
  match order with
  | [] => (newHandlers, errs)
  | (inst, ps) :: rest =>
      match old !! inst with
      | Some handler =>
          updateHandlers rest old (<[inst := with_projects handler ps]> newHandlers) errs
      | None =>
          match NewGerritClient inst with
          | inl err => updateHandlers rest old newHandlers (errs ++ [err])
          | inr g =>
              updateHandlers rest old
                (<[inst := {| instance := inst; projects := ps; gc := g |}]> newHandlers)
                errs
          end
      end
  end.

(** [UpdateClients] *)
Definition UpdateClients
    (order : list (string * gmap string (option GerritQueryFilter)))
    (c : Client G Env) : Client G Env * option error :=
  let '(newHandlers, errs) := updateHandlers order (handlers c) ∅ [] in
  (with_handlers c newHandlers, NewAggregate errs).

(** The loop [for project, filters := range h.projects] of
    [queryAllChanges]; [order] lists the projects as the loop visits
    them. *)
Fixpoint queryProjects (fuel : nat) (timeNow : Timestamp) (lastState : gmap string Z)
    (rateLimit : Z) (order : list (string * option GerritQueryFilter))
    (result : list ChangeInfo) (g : G) : outcome (list ChangeInfo) * G :=
  match order with
  | [] => (Returns result, g)
  | (project, filters) :: rest =>
      let lastUpdate :=
        match lastState !! project with
        | Some t => t
        | None => timeNow
        end in
      match handlerQueryChangesForProject fuel project lastUpdate rateLimit
              (queryStringsFromQueryFilter filters) g with
      | (Returns (_, Some _), g') =>
          queryProjects fuel timeNow lastState rateLimit rest result g'
      | (Returns (changes, None), g') =>
          queryProjects fuel timeNow lastState rateLimit rest (result ++ changes) g'
      | (Panics p, g') => (Panics p, g')
      | (OutOfFuel, g') => (OutOfFuel, g')
      end
  end.

(** [queryAllChanges]; [timeNow] is the value of [time.Now()] and [range]
    the order in which Go visits a map of projects. *)
Definition queryAllChanges (fuel : nat) (timeNow : Timestamp)
    (range : gmap string (option GerritQueryFilter) →
             list (string * option GerritQueryFilter))
    (lastState : gmap string Z) (rateLimit : Z) (h : gerritInstanceHandler G)
    : outcome (list ChangeInfo) * gerritInstanceHandler G :=
  let '(r, g') :=
    queryProjects fuel timeNow lastState rateLimit (range (projects h)) [] (gc h) in
  (r, with_gc h g').

(** [Client.QueryChangesForInstance] *)
Definition QueryChangesForInstance (fuel : nat) (timeNow : Timestamp)
    (range : gmap string (option GerritQueryFilter) →
             list (string * option GerritQueryFilter))
    (inst : string) (lastState : LastSyncState) (rateLimit : Z) (c : Client G Env)
    : outcome (list ChangeInfo) * Client G Env :=
  match handlers c !! inst with
  | None => (Returns [], c)
  | Some h =>
      let lastStateForInstance := default ∅ (lastState !! inst) in
      let '(r, h') := queryAllChanges fuel timeNow range lastStateForInstance rateLimit h in
      (r, with_handlers c (<[inst := h']> (handlers c)))
  end.

(** [Client.QueryChangesForProject] *)
Definition QueryChangesForProject (fuel : nat) (inst project : string)
    (lastUpdate : Timestamp) (rateLimit : Z) (additionalFilters : list string)
    (c : Client G Env) : outcome (list ChangeInfo * option error) * Client G Env :=
  match handlers c !! inst with
  | None => (Returns ([], Some (ErrInstanceNotFound inst)), c)
  | Some h =>
      match projects h !! project with
      | None => (Returns ([], Some (ErrProjectNotRegistered project inst)), c)
      | Some queryFilters =>
          let '(r, g') :=
            handlerQueryChangesForProject fuel project lastUpdate rateLimit
              (queryStringsFromQueryFilter queryFilters ++ additionalFilters) (gc h) in
          let c' := with_handlers c (<[inst := with_gc h g']> (handlers c)) in
          match r with
          | Returns (_, Some err) =>
              (Returns ([], Some (ErrQueryFailed project inst err)), c')
          | Returns (changes, None) => (Returns (changes, None), c')
          | Panics p => (Panics p, c')
          | OutOfFuel => (OutOfFuel, c')
          end
      end
  end.

End Registry.

(** ** Gateways used to observe the code

    [recorder] wraps any gateway and logs the calls it receives, in order,
    without changing what the wrapped gateway answers. *)

Inductive call :=
| CallQueryChanges (opt : QueryChangeOptions)
| CallListChangeComments (changeID : string)
| CallSetCookieAuth (name value : string).

Record recorded (G : Type) := {
  inner : G;
  calls : list call;
}.
Arguments inner {G} _.
Arguments calls {G} _.

#[export] Instance recorder {G} `{!Gerrit G} : Gerrit (recorded G) := {|
  NewGerritClient inst :=
    match NewGerritClient inst with
    | inl e => inl e
    | inr g => inr {| inner := g; calls := [] |}
    end;
  SetCookieAuth name value r :=
    {| inner := SetCookieAuth name value (inner r);
       calls := calls r ++ [CallSetCookieAuth name value] |};
  QueryChanges opt r :=
    let '(reply, g') := QueryChanges opt (inner r) in
    (reply, {| inner := g'; calls := calls r ++ [CallQueryChanges opt] |});
  ListChangeComments changeID r :=
    let '(reply, g') := ListChangeComments changeID (inner r) in
    (reply, {| inner := g'; calls := calls r ++ [CallListChangeComments changeID] |});
|}.

(** The requests for a page among the calls. *)
Definition pageRequests (cs : list call) : list QueryChangeOptions :=
  omap (λ c, match c with CallQueryChanges opt => Some opt | _ => None end) cs.

(** The changes whose comments were requested. *)
Definition commentRequests (cs : list call) : list string :=
  omap (λ c, match c with CallListChangeComments i => Some i | _ => None end) cs.

(** The credentials installed. *)
Definition cookieCalls (cs : list call) : list (string * string) :=
  omap (λ c, match c with CallSetCookieAuth n v => Some (n, v) | _ => None end) cs.

(** [scripted]: a test double that answers the page requests from a script,
    one reply per request and an empty page once the script is over, and
    the comment requests from a table. *)
Record script := {
  pages : list (option (list ChangeInfo) * option (option string) * option error);
  commentsOf : string →
    option (gmap string (list CommentInfo)) * option (option string) * option error;
}.

Definition noComments (_ : string)
    : option (gmap string (list CommentInfo)) * option (option string) * option error :=
  (Some ∅, None, None).

#[export] Instance scripted : Gerrit script := {|
  NewGerritClient inst :=
    if String.eqb inst EmptyString then inl (ErrGerrit "no instance given")
    else inr {| pages := []; commentsOf := noComments |};
  SetCookieAuth _ _ s := s;
  QueryChanges _ s :=
    match pages s with
    | [] => (Some [], None, None, s)
    | reply :: rest => (reply, {| pages := rest; commentsOf := commentsOf s |})
    end;
  ListChangeComments changeID s := (commentsOf s changeID, s);
|}.

(** ** What makes a change actionable

    The conditions under which the poller reports a change, as predicates on
    the change that is reported. *)

(** A merge after the watermark. *)
Definition freshMerge (lastUpdate : Z) (c : ChangeInfo) : Prop :=
  ∃ t, Submitted c = Some t ∧ lastUpdate < t.

(** A message on the current revision after the watermark. *)
Definition freshMessage (lastUpdate : Z) (rev : RevisionInfo)
    (ms : list ChangeMessageInfo) : Prop :=
  ∃ m, m ∈ ms ∧ RevisionNumber m = rev_Number rev ∧ lastUpdate < Date m.

(** An open change with a fresh current revision or a fresh message on it. *)
Definition freshNew (lastUpdate : Z) (c : ChangeInfo) : Prop :=
  ∃ rev, Revisions c !! CurrentRevision c = Some rev ∧
         (freshMessage lastUpdate rev (Messages c) ∨ lastUpdate < rev_Created rev).

Definition actionable (lastUpdate : Z) (c : ChangeInfo) : Prop :=
  lastUpdate < Updated c ∧
  ((Status c = Merged ∧ freshMerge lastUpdate c) ∨
   (Status c = New ∧ freshNew lastUpdate c)).

(** Whether classifying a change asks the gateway for its comments: an open
    change whose current revision is in its revision map. *)
Definition asksComments (c : ChangeInfo) : bool :=
  negb (String.eqb (Status c) Merged) && String.eqb (Status c) New &&
  bool_decide (is_Some (Revisions c !! CurrentRevision c)).

(** [m] is the synthetic message of the patchset-level comment [c]: it
    carries the author, the timestamp, the text and the targeted revision
    number of the comment. *)
Definition messageFor (c : CommentInfo) (m : ChangeMessageInfo) : Prop :=
  Author m = c_Author c ∧ c_Updated c = Some (Date m) ∧
  Message m = c_Message c ∧ RevisionNumber m = PatchSet c.

(** ** Preconditions on what a gateway serves *)

(** A merged change updated after the watermark carries its submitted
    timestamp. *)
Definition submittedPresent (lastUpdate : Z) (c : ChangeInfo) : Prop :=
  Status c = Merged → lastUpdate < Updated c → is_Some (Submitted c).

(** A comment listing that is there, with a timestamp on each patchset-level
    comment. *)
Definition commentsDated (out : option (gmap string (list CommentInfo))) : Prop :=
  ∃ outer, out = Some outer ∧
    ∀ comments, outer !! "/PATCHSET_LEVEL" = Some comments →
                Forall (λ c, is_Some (c_Updated c)) comments.

(** The scripts all of whose pages and comment listings are as above. *)
Definition scriptDated (lastUpdate : Z) (s : script) : Prop :=
  Forall (λ reply, ∀ page, reply.1.1 = Some page →
                           Forall (submittedPresent lastUpdate) page) (pages s) ∧
  ∀ changeID, (commentsOf s changeID).2 = None →
              commentsDated (commentsOf s changeID).1.1.

(** ** Sample data

    A watermark, a few changes around it, and gateways that serve them. *)

Definition sampleWatermark : Z := 1000.

Definition sampleRevision (created : Z) : gmap string RevisionInfo :=
  {[ "rev-a" := {| rev_Created := created; rev_Number := 1 |} ]}.

Definition sampleChange (id status : string) (updated : Z) (submitted : option Z)
    (created : Z) (ms : list ChangeMessageInfo) : ChangeInfo :=
  {| ID := id; Number := 7; Status := status; Updated := updated;
     Submitted := submitted; CurrentRevision := "rev-a";
     Revisions := sampleRevision created; Messages := ms |}.

(** merged after the watermark *)
Definition mergedFresh : ChangeInfo :=
  sampleChange "merged-fresh" Merged 1012 (Some 1011) 900 [].

(** updated after the watermark (a label edit), merged before it *)
Definition mergedStale : ChangeInfo :=
  sampleChange "merged-stale" Merged 1010 (Some 995) 900 [].

(** open, current revision created after the watermark *)
Definition newFresh : ChangeInfo :=
  sampleChange "new-fresh" New 1008 None 1005 [].

(** open, current revision created before the watermark, no message *)
Definition newStale : ChangeInfo :=
  sampleChange "new-stale" New 1006 None 995 [].

(** abandoned, updated after the watermark *)
Definition abandoned : ChangeInfo :=
  sampleChange "abandoned" "ABANDONED" 1004 None 1003 [].

(** last updated before the watermark *)
Definition oldChange : ChangeInfo :=
  sampleChange "old" New 990 None 980 [].

Definition okPage (page : list ChangeInfo)
    : option (list ChangeInfo) * option (option string) * option error :=
  (Some page, None, None).

(** Two pages; the paging has to end within the first one. *)
Definition samplePages : recorded script :=
  {| inner := {| pages := [okPage [mergedFresh; newFresh; oldChange; mergedStale];
                           okPage [abandoned]];
                 commentsOf := noComments |};
     calls := [] |}.

Definition sampleQuery : QueryChangeOptions := projectQuery "ci-tools" [].

(** One page with a fresh merge, a stale merge and an old change. *)
Definition mergedPages : script :=
  {| pages := [okPage [mergedFresh; mergedStale; oldChange]];
     commentsOf := noComments |}.

Definition nativeMessage : ChangeMessageInfo :=
  {| Author := "author"; Date := 1000; Message := "Uploaded patch set 1.";
     RevisionNumber := 1 |}.

Definition lateComment : CommentInfo :=
  {| c_Author := "reviewer"; c_Updated := Some 1001; c_Message := "/retest";
     PatchSet := 1 |}.

Definition earlyComment : CommentInfo :=
  {| c_Author := "reviewer"; c_Updated := Some 999; c_Message := "looks good";
     PatchSet := 1 |}.

(** open, current revision created before the watermark, one native message
    at the watermark *)
Definition newCommented : ChangeInfo :=
  sampleChange "new-commented" New 1006 None 995 [nativeMessage].

(** Patchset-level comments on [newCommented], one after the watermark and
    one before it; no comments on the other changes. *)
Definition sampleComments (changeID : string)
    : option (gmap string (list CommentInfo)) * option (option string) * option error :=
  if String.eqb changeID "new-commented"
  then (Some {[ "/PATCHSET_LEVEL" := [lateComment; earlyComment] ]}, None, None)
  else noComments changeID.

Definition commentedPages : script :=
  {| pages := [okPage [newCommented; newStale]]; commentsOf := sampleComments |}.

(** [newCommented] with the two comments merged into its messages. *)
Definition newCommentedMerged : ChangeInfo :=
  with_Messages newCommented
    [messageOfComment earlyComment 999; nativeMessage; messageOfComment lateComment 1001].

(** A registry with one instance, one project and a recording gateway that
    has been given the credential that the registry remembers. *)
Definition sampleHandler : gerritInstanceHandler (recorded script) :=
  {| instance := "gerrit.example";
     projects := {[ "ci-tools" := None ]};
     gc := {| inner := mergedPages; calls := [CallSetCookieAuth "o" "old-token"] |} |}.

(** What the authentication functions of [Authenticate] return when the
    file cannot be read: the empty string and the error. *)
Definition failingRead (_ : unit) : string * option error :=
  (EmptyString, Some (ErrGerrit "read token: open /etc/token: no such file or directory")).

Definition sampleClient : Client (recorded script) unit :=
  {| handlers := {[ "gerrit.example" := sampleHandler ]};
     accounts := ∅;
     authentication := Some failingRead;
     previousToken := "old-token" |}.

(** A desired configuration: the instance of [sampleClient] with another
    project filter, a new instance, and an instance for which no gerrit
    client can be made. *)
Definition releaseFilter : GerritQueryFilter :=
  {| Branches := ["main"; "release-4.5"]; ExcludedBranches := ["wip"] |}.

Definition desiredInstances : gmap string (gmap string (option GerritQueryFilter)) :=
  {[ "gerrit.example" := {[ "ci-tools" := Some releaseFilter ]};
     "gerrit.new" := {[ "release" := None ]};
     EmptyString := ∅ ]}.

(** A registry with a second instance, which [desiredInstances] drops. *)
Definition twoInstances : Client (recorded script) unit :=
  {| handlers := {[ "gerrit.example" := sampleHandler;
                    "gerrit.retired" :=
                      {| instance := "gerrit.retired"; projects := ∅;
                         gc := samplePages |} ]};
     accounts := ∅;
     authentication := Some failingRead;
     previousToken := "old-token" |}.

(** [twoInstances] after [UpdateClients] with [desiredInstances]. *)
Definition reconciled : Client (recorded script) unit :=
  {| handlers :=
       {[ "gerrit.example" :=
            with_projects sampleHandler {[ "ci-tools" := Some releaseFilter ]};
          "gerrit.new" :=
            {| instance := "gerrit.new"; projects := {[ "release" := None ]};
               gc := {| inner := {| pages := []; commentsOf := noComments |};
                        calls := [] |} |} ]};
     accounts := ∅;
     authentication := Some failingRead;
     previousToken := "old-token" |}.

(** A gateway whose comment listing always fails. *)
Definition failingComments (_ : string)
    : option (gmap string (list CommentInfo)) * option (option string) * option error :=
  (None, None, Some (ErrGerrit "comments unavailable")).

Definition uncommentedPages : script :=
  {| pages := [okPage [newFresh; newStale]]; commentsOf := failingComments |}.

(** A patchset-level comment without timestamp. *)
Definition undatedComment : CommentInfo :=
  {| c_Author := "reviewer"; c_Updated := None; c_Message := "no date";
     PatchSet := 1 |}.

Definition undatedComments (_ : string)
    : option (gmap string (list CommentInfo)) * option (option string) * option error :=
  (Some {[ "/PATCHSET_LEVEL" := [undatedComment] ]}, None, None).

(** A page whose merged change carries its submitted timestamp, served by a
    gateway whose comments carry no timestamp. *)
Definition undatedPages : script :=
  {| pages := [okPage [mergedFresh; newFresh]]; commentsOf := undatedComments |}.

(** Three pages; the paging has to end within the second one. *)
Definition threePages : recorded script :=
  {| inner := {| pages := [okPage [mergedFresh; newFresh];
                           okPage [mergedStale; oldChange; abandoned];
                           okPage [abandoned]];
                 commentsOf := noComments |};
     calls := [] |}.

(** * The rest of the client *)

(** ** What a scripted gateway serves *)

(** The changes of the pages of a script, in the order of the script. *)
Definition servedChanges (s : script) : list ChangeInfo :=
  mjoin (omap (λ reply, reply.1.1) (pages s)).

(** What [QueryChangesForProject] returns after the loop over the changes
    [changes] ended with [r]. *)
Definition pollOutcome (r : outcome (pageEnd * list ChangeInfo))
    : outcome (list ChangeInfo * option error) :=
  match r with
  | Returns (_, pending) => Returns (pending, None)
  | Panics p => Panics p
  | OutOfFuel => OutOfFuel
  end.

(** A first page, and then a request that fails with a response body. *)
Definition failingPages : script :=
  {| pages := [okPage [mergedFresh];
               (None, Some (Some "quota exceeded"), Some (ErrGerrit "429 Too Many Requests"))];
     commentsOf := noComments |}.

(** A handler with two projects, one of them with a branch filter, whose
    gateway fails the first page request and then serves a fresh merge. *)
Definition twoProjects : gerritInstanceHandler script :=
  {| instance := "gerrit.example";
     projects := {[ "ci-tools" := None;
                    "release" := Some {| Branches := ["main"; "release-4.5"];
                                         ExcludedBranches := ["wip"] |} ]};
     gc := {| pages := [(None, None, Some (ErrGerrit "connection reset"));
                        okPage [mergedFresh]];
              commentsOf := noComments |} |}.

(** ** The registry, continued *)

Section RegistryMore.
Context {G Env : Type} `{!Gerrit G}.

(** The loop [for instance := range instances] of [NewClient];
    [newGerritClient] is [gerrit.NewClient] with the HTTP client that adds
    the user agent, and [order] lists the entries of [instances] as the loop
    visits them. *)
Fixpoint newClientHandlers (newGerritClient : string → error + G)
    (order : list (string * gmap string (option GerritQueryFilter)))
    (hs : gmap string (gerritInstanceHandler G))
    : error + gmap string (gerritInstanceHandler G) :=
  match order with
  | [] => inr hs
  | (inst, ps) :: rest =>
      match newGerritClient inst with
      | inl err => inl err
      | inr g =>
          newClientHandlers newGerritClient rest
            (<[inst := {| instance := inst; projects := ps; gc := g |}]> hs)
      end
  end.

(** [NewClient] *)
Definition NewClient (newGerritClient : string → error + G)
    (order : list (string * gmap string (option GerritQueryFilter)))
    : error + Client G Env :=
  match newClientHandlers newGerritClient order ∅ with
  | inl err => inl err
  | inr hs =>
      inr {| handlers := hs; accounts := ∅; authentication := None;
             previousToken := EmptyString |}
  end.

(** The loop [for _, h := range c.handlers] of [Client.QueryChanges]:
    [order] lists the handlers with their keys as the loop visits them, and
    [now k] is the time that the call of [queryAllChanges] for the handler
    number [k] reads. *)
Fixpoint queryHandlers (fuel : nat) (now : nat → Z)
    (range : gmap string (option GerritQueryFilter) →
             list (string * option GerritQueryFilter))
    (lastState : gmap string (gmap string Z)) (rateLimit : Z) (k : nat)
    (order : list (string * gerritInstanceHandler G))
    (result : gmap string (list ChangeInfo))
    (hs : gmap string (gerritInstanceHandler G))
    : outcome (gmap string (list ChangeInfo)) * gmap string (gerritInstanceHandler G) :=
  match order with
  | [] => (Returns result, hs)
  | (key, h) :: rest =>
      let lastStateForInstance := default ∅ (lastState !! instance h) in
      let '(r, h') :=
        queryAllChanges fuel (now k) range lastStateForInstance rateLimit h in
      let hs' := <[key := h']> hs in
      match r with
      | Returns changes =>
          match changes with
          | [] => queryHandlers fuel now range lastState rateLimit (S k) rest result hs'
          | _ =>
              queryHandlers fuel now range lastState rateLimit (S k) rest
                (<[instance h := default [] (result !! instance h) ++ changes]> result)
                hs'
          end
      | Panics p => (Panics p, hs')
      | OutOfFuel => (OutOfFuel, hs')
      end
  end.

(** [Client.QueryChanges]; [rangeHandlers] is the order in which Go visits
    the map of handlers. *)
Definition ClientQueryChanges (fuel : nat) (now : nat → Z)
    (range : gmap string (option GerritQueryFilter) →
             list (string * option GerritQueryFilter))
    (rangeHandlers : gmap string (gerritInstanceHandler G) →
                     list (string * gerritInstanceHandler G))
    (lastState : gmap string (gmap string Z)) (rateLimit : Z) (c : Client G Env)
    : outcome (gmap string (list ChangeInfo)) * Client G Env :=
  let '(r, hs) :=
    queryHandlers fuel now range lastState rateLimit 0 (rangeHandlers (handlers c)) ∅
      (handlers c) in
  (r, with_handlers c hs).

End RegistryMore.

(** Every handler is stored under its own name. *)
Definition handlersNamed {G} (hs : gmap string (gerritInstanceHandler G)) : Prop :=
  ∀ inst h, hs !! inst = Some h → instance h = inst.

(** An authentication function that reads the token that [twoInstances]
    remembers, and the registry with it. *)
Definition steadyRead (_ : unit) : string * option error := ("old-token", None).

Definition steadyClient : Client (recorded script) unit :=
  {| handlers := handlers twoInstances;
     accounts := ∅;
     authentication := Some steadyRead;
     previousToken := "old-token" |}.

(** A configuration with one instance. *)
Definition singleInstance : gmap string (gmap string (option GerritQueryFilter)) :=
  {[ "gerrit.example" := {[ "ci-tools" := None ]} ]}.

(** [sampleClient] after one poll of its instance. *)
Definition polledClient : Client (recorded script) unit :=
  with_handlers sampleClient
    {[ "gerrit.example" :=
         with_gc sampleHandler
           {| inner := {| pages := []; commentsOf := noComments |};
              calls := [CallSetCookieAuth "o" "old-token";
                        CallQueryChanges (pageOptions sampleQuery 50 0)] |} ]}.

(** ** The targeted operations

    [GetChange], [ChangeExist], [SetReview], [GetBranchRevision] and
    [Account] use four more calls of the gerrit client, and look at the HTTP
    response of a failed call. *)

(** The part of [http.Response] that the code reads. *)
Record HTTPResponse := {
  StatusCode : Z;
  Body : string;
}.

(** [*gerrit.Response] embeds [*http.Response]: both pointers may be nil. *)
Definition responseBody (resp : option (option HTTPResponse)) : option (option string) :=
  match resp with
  | None => None
  | Some None => Some None
  | Some (Some r) => Some (Some (Body r))
  end.

(** [gerrit.ReviewInput], as [SetReview] fills it. *)
Record ReviewInput := {
  ri_Message : string;
  ri_Labels : gmap string string;
}.

(** [gerrit.BranchInfo] *)
Record BranchInfo := {
  Revision : string;
}.

(** The calls of [gerritAccount], [gerritChange] and [gerritProjects] that
    the targeted operations make.  [GetChange] is called without options.
    The review result of [SetReview] is not looked at and is left out.  A
    [*gerrit.AccountInfo] is modelled by the account it points to. *)
Class GerritServices (G : Type) := {
  GetAccount : string → G → (string * option (option HTTPResponse) * option error) * G;
  GetChange :
    string → G → (option ChangeInfo * option (option HTTPResponse) * option error) * G;
  SetReview :
    string → string → ReviewInput → G → (option (option HTTPResponse) * option error) * G;
  GetBranch :
    string → string → G →
    (option BranchInfo * option (option HTTPResponse) * option error) * G;
}.

(** The errors that the targeted operations make. *)
Inductive clientError :=
| ErrNotActivated (instance : string)
    (* "not activated gerrit instance: %s" *)
| ErrGettingChange (err : error)
    (* "error getting current change: %w" *)
| ErrCannotComment (err : error)
    (* "cannot comment to gerrit: %w" *)
| ErrNoHandlers
    (* "no handlers found" *)
| ErrGetAccount (err : error)
    (* "GetAccount() failed with new authentication: %w" *)
| ErrCall (err : error).
    (* the error of the call, returned as responseBodyError makes it *)

(** What a call ends with: a result, or the dereference of a nil pointer. *)
Inductive called (A : Type) :=
| Done (a : A)
| NilDereference.
Arguments Done {A} a.
Arguments NilDereference {A}.

Section Targeted.
Context {G Env : Type} `{!GerritServices G}.

Definition with_accounts (c : Client G Env) (accs : gmap string string) : Client G Env :=
  {| handlers := handlers c; accounts := accs;
     authentication := authentication c; previousToken := previousToken c |}.

(** The registry after a call that left the gateway of the handler [h] of
    [inst] as [g']. *)
Definition with_gateway (c : Client G Env) (inst : string)
    (h : gerritInstanceHandler G) (g' : G) : Client G Env :=
  {| handlers := <[inst := with_gc h g']> (handlers c); accounts := accounts c;
     authentication := authentication c; previousToken := previousToken c |}.

(** [Client.GetChange] *)
Definition ClientGetChange (inst id : string) (c : Client G Env)
    : (option ChangeInfo * option clientError) * Client G Env :=
  match handlers c !! inst with
  | None => ((None, Some (ErrNotActivated inst)), c)
  | Some h =>
      let '(info, resp, err, g') := GetChange id (gc h) in
      match err with
      | Some e =>
          ((None, Some (ErrGettingChange (responseBodyError e (responseBody resp)))),
           with_gateway c inst h g')
      | None => ((info, None), with_gateway c inst h g')
      end
  end.

(** [Client.ChangeExist] *)
Definition ChangeExist (inst id : string) (c : Client G Env)
    : called (bool * option clientError) * Client G Env :=
  match handlers c !! inst with
  | None => (Done (false, Some (ErrNotActivated inst)), c)
  | Some h =>
      let '(_, resp, err, g') := GetChange id (gc h) in
      match err with
      | Some e =>
          match resp with
          | Some (Some r) =>
              if StatusCode r =? 404 then (Done (false, None), with_gateway c inst h g')
              else
                (Done (false,
                       Some (ErrGettingChange (responseBodyError e (responseBody resp)))),
                 with_gateway c inst h g')
          | _ => (NilDereference, with_gateway c inst h g')
          end
      | None => (Done (true, None), with_gateway c inst h g')
      end
  end.

(** [Client.SetReview] *)
Definition ClientSetReview (inst id revision message : string)
    (labels : gmap string string) (c : Client G Env)
    : option clientError * Client G Env :=
  match handlers c !! inst with
  | None => (Some (ErrNotActivated inst), c)
  | Some h =>
      let '(resp, err, g') :=
        SetReview id revision {| ri_Message := message; ri_Labels := labels |} (gc h) in
      match err with
      | Some e =>
          (Some (ErrCannotComment (responseBodyError e (responseBody resp))),
           with_gateway c inst h g')
      | None => (None, with_gateway c inst h g')
      end
  end.

(** [Client.GetBranchRevision] *)
Definition GetBranchRevision (inst project branch : string) (c : Client G Env)
    : called (string * option clientError) * Client G Env :=
  match handlers c !! inst with
  | None => (Done (EmptyString, Some (ErrNotActivated inst)), c)
  | Some h =>
      let '(res, resp, err, g') := GetBranch project branch (gc h) in
      match err with
      | Some e =>
          (Done (EmptyString, Some (ErrCall (responseBodyError e (responseBody resp)))),
           with_gateway c inst h g')
      | None =>
          match res with
          | Some info => (Done (Revision info, None), with_gateway c inst h g')
          | None => (NilDereference, with_gateway c inst h g')
          end
      end
  end.

(** [Client.Account] *)
Definition Account (inst : string) (c : Client G Env)
    : (option string * option clientError) * Client G Env :=
  match accounts c !! inst with
  | Some existing => ((Some existing, None), c)
  | None =>
      match handlers c !! inst with
      | None => ((None, Some ErrNoHandlers), c)
      | Some h =>
          let '(self, resp, err, g') := GetAccount "self" (gc h) in
          match err with
          | Some e =>
              ((None, Some (ErrGetAccount (responseBodyError e (responseBody resp)))),
               with_gateway c inst h g')
          | None =>
              ((Some self, None),
               with_accounts (with_gateway c inst h g') (<[inst := self]> (accounts c)))
          end
      end
  end.

End Targeted.

(** What a targeted operation leaves as it is in a registry. *)
Definition sameRegistry {G Env} (c c' : Client G Env) : Prop :=
  accounts c' = accounts c ∧ previousToken c' = previousToken c ∧
  authentication c' = authentication c ∧
  (∀ i, instance <$> handlers c' !! i = instance <$> handlers c !! i) ∧
  (∀ i, projects <$> handlers c' !! i = projects <$> handlers c !! i).

(** A test double for the targeted operations: an instance that knows some
    changes and an account, and that may be out of reach, in which case a
    call fails without response. *)
Record server := {
  srv_script : script;
  srv_changes : gmap string ChangeInfo;
  srv_account : option string;
  srv_reachable : bool;
  srv_reviews : list (string * string * string);
}.

Definition newServer : server :=
  {| srv_script := {| pages := []; commentsOf := noComments |};
     srv_changes := ∅; srv_account := None; srv_reachable := true;
     srv_reviews := [] |}.

Definition with_script (s : server) (sc : script) : server :=
  {| srv_script := sc; srv_changes := srv_changes s; srv_account := srv_account s;
     srv_reachable := srv_reachable s; srv_reviews := srv_reviews s |}.

#[export] Instance serverGerrit : Gerrit server := {|
  NewGerritClient inst :=
    if String.eqb inst EmptyString then inl (ErrGerrit "no instance given")
    else inr newServer;
  SetCookieAuth _ _ s := s;
  QueryChanges opt s :=
    let '(reply, sc) := QueryChanges opt (srv_script s) in (reply, with_script s sc);
  ListChangeComments changeID s :=
    let '(reply, sc) := ListChangeComments changeID (srv_script s) in
    (reply, with_script s sc);
|}.

Definition unreachable : error := ErrGerrit "dial tcp: i/o timeout".

Definition httpStatus (code : Z) (body : string) : option (option HTTPResponse) :=
  Some (Some {| StatusCode := code; Body := body |}).

#[export] Instance serverServices : GerritServices server := {|
  GetAccount _ s :=
    if srv_reachable s then
      match srv_account s with
      | Some a => (a, httpStatus 200 "OK", None, s)
      | None =>
          (EmptyString, httpStatus 401 "Unauthorized", Some (ErrGerrit "401"), s)
      end
    else (EmptyString, None, Some unreachable, s);
  GetChange id s :=
    if srv_reachable s then
      match srv_changes s !! id with
      | Some change => (Some change, httpStatus 200 "OK", None, s)
      | None => (None, httpStatus 404 "Not found", Some (ErrGerrit "404"), s)
      end
    else (None, None, Some unreachable, s);
  SetReview id revision input s :=
    if srv_reachable s then
      (httpStatus 200 "OK", None,
       {| srv_script := srv_script s; srv_changes := srv_changes s;
          srv_account := srv_account s; srv_reachable := srv_reachable s;
          srv_reviews := srv_reviews s ++ [(id, revision, ri_Message input)] |})
    else (None, Some unreachable, s);
  GetBranch _ _ s :=
    if srv_reachable s then (Some {| Revision := "0123abcd" |}, httpStatus 200 "OK", None, s)
    else (None, None, Some unreachable, s);
|}.

(** A registry over [server] gateways: one instance that knows a change and
    an account, and one that is out of reach. *)
Definition reachableServer : server :=
  {| srv_script := mergedPages;
     srv_changes := {[ "merged-fresh" := mergedFresh ]};
     srv_account := Some "prow-bot"; srv_reachable := true; srv_reviews := [] |}.

Definition unreachableServer : server :=
  {| srv_script := mergedPages; srv_changes := ∅;
     srv_account := None; srv_reachable := false; srv_reviews := [] |}.

Definition serverClient : Client server unit :=
  {| handlers :=
       {[ "gerrit.example" :=
            {| instance := "gerrit.example"; projects := {[ "ci-tools" := None ]};
               gc := reachableServer |};
          "gerrit.down" :=
            {| instance := "gerrit.down"; projects := ∅; gc := unreachableServer |} ]};
     accounts := ∅;
     authentication := None;
     previousToken := EmptyString |}.

(** ** The projects flag and the sync state *)

(** [strings.Split(s, sep)] for a separator [sep] of one byte. *)
Fixpoint Split (sep : ascii) (s : string) : list string :=
  match s with
  | EmptyString => [EmptyString]
  | String a s' =>
      if Ascii.eqb a sep then EmptyString :: Split sep s'
      else
        match Split sep s' with
        | [] => [String a EmptyString]
        | x :: xs => String a x :: xs
        end
  end.

(** [strings.SplitN(s, sep, 2)] for a separator [sep] of one byte: [s] cut at
    its first [sep], or [s] alone. *)
Fixpoint SplitN2 (sep : ascii) (s : string) : list string :=
  match s with
  | EmptyString => [EmptyString]
  | String a s' =>
      if Ascii.eqb a sep then [EmptyString; s']
      else
        match SplitN2 sep s' with
        | x :: rest => String a x :: rest
        | [] => [String a EmptyString]
        end
  end.

(** Whether the byte [a] occurs in [s]. *)
Fixpoint hasByte (a : ascii) (s : string) : bool :=
  match s with
  | EmptyString => false
  | String b s' => Ascii.eqb b a || hasByte a s'
  end.

(** The errors of [ProjectsFlag.Set]. *)
Inductive flagError :=
| ErrNotHostRepos (value : string)
    (* "%s not in the form of host=repo-a,repo-b,etc" *)
| ErrDuplicateHost (host : string).
    (* "duplicate host: %s" *)

(** [ProjectsFlag.String]; [order] lists the entries of the flag as the loop
    visits them. *)
Definition ProjectsFlag_String (order : list (string * list string)) : string :=
  String.concat " "
    ((λ hr : string * list string, hr.1 +:+ "=" +:+ String.concat "," hr.2) <$> order).

(** [ProjectsFlag.Set]: the flag after the call and the error returned. *)
Definition ProjectsFlag_Set (value : string) (p : gmap string (list string))
    : gmap string (list string) * option flagError :=
  match SplitN2 "="%char value with
  | [host; repos] =>
      match p !! host with
      | Some _ => (p, Some (ErrDuplicateHost host))
      | None => (<[host := Split ","%char repos]> p, None)
      end
  | _ => (p, Some (ErrNotHostRepos value))
  end.

(** [ProjectsFlagToConfig]; [order] lists the entries of the flag as the
    outer loop visits them. *)
Definition ProjectsFlagToConfig (order : list (string * list string))
    : gmap string (gmap string (option GerritQueryFilter)) :=
  foldl (λ res (hp : string * list string),
           <[hp.1 := foldl (λ m project, <[project := None]> m) ∅ hp.2]> res)
    ∅ order.

(** [LastSyncState.DeepCopy]; [order] lists the hosts as the outer loop
    visits them and [range] is the order in which the inner loop visits the
    projects of a host. *)
Definition DeepCopy (range : gmap string Z → list (string * Z))
    (order : list (string * gmap string Z)) : gmap string (gmap string Z) :=
  foldl (λ result (hl : string * gmap string Z),
           <[hl.1 := foldl (λ m (pt : string * Z), <[pt.1 := pt.2]> m) ∅ (range hl.2)]>
             result)
    ∅ order.

(** * Properties of the client *)

(** ** Facts about time stamps and records *)

Lemma After_true t u : After t u = true ↔ u < t.
Proof. unfold After. apply Z.ltb_lt. Qed.

Lemma After_false t u : After t u = false ↔ t ≤ u.
Proof. unfold After. rewrite Z.ltb_ge. done. Qed.

Lemma with_Messages_same c : with_Messages c (Messages c) = c.
Proof. by destruct c. Qed.

Lemma Merged_not_New : Merged ≠ New.
Proof. discriminate. Qed.

(** ** Facts about the classification *)

Section PollerFacts.
Context {G : Type} `{!Gerrit G}.

Lemma newMessages_true lastUpdate rev ms :
  newMessages lastUpdate rev ms = true ↔ freshMessage lastUpdate rev ms.
Proof.
  unfold freshMessage. induction ms as [|m ms IH]; simpl; unfold parseStamp.
  - split; [done|]. intros (m & Hm & _). by apply elem_of_nil in Hm.
  - destruct (RevisionNumber m =? rev_Number rev) eqn:Hn.
    + apply Z.eqb_eq in Hn. destruct (After (Date m) lastUpdate) eqn:Ha; simpl.
      * apply After_true in Ha. split; [|done]. intros _. exists m.
        split; [left|done].
      * apply After_false in Ha. rewrite IH. split.
        -- intros (m' & Hin & ?). exists m'. split; [by right|done].
        -- intros (m' & Hin & Hr & Hd). apply elem_of_cons in Hin as [->|Hin].
           ++ lia.
           ++ by exists m'.
    + apply Z.eqb_neq in Hn. rewrite IH. split.
      * intros (m' & Hin & ?). exists m'. split; [by right|done].
      * intros (m' & Hin & Hr & Hd). apply elem_of_cons in Hin as [->|Hin].
        -- done.
        -- by exists m'.
Qed.

(** [injectPatchsetMessages] touches the messages of the change only, and
    asks for the comments of that change once. *)
Lemma injectPatchsetMessages_change change g r g' :
  injectPatchsetMessages change g = (r, g') →
  r ≠ OutOfFuel ∧
  ∀ change' e, r = Returns (change', e) →
               change' = with_Messages change (Messages change').
Proof.
  unfold injectPatchsetMessages.
  destruct (ListChangeComments (ID change) g) as [[[out resp] err] g1].
  destruct err as [e|].
  { intros [= <- <-]. split; [done|]. intros ? ? [= <- <-].
    by rewrite with_Messages_same. }
  destruct out as [outer|]; [|intros [= <- <-]; by split].
  destruct (outer !! "/PATCHSET_LEVEL") as [comments|].
  2:{ intros [= <- <-]. split; [done|]. intros ? ? [= <- <-].
      by rewrite with_Messages_same. }
  destruct (appendComments comments (Messages change) false) as [[ms changed]|].
  - intros [= <- <-]. split; [done|]. by intros ? ? [= <- <-].
  - intros [= <- <-]. by split.
Qed.

Lemma classify_actionable lastUpdate change pending g r g' :
  classify lastUpdate change pending g = (r, g') →
  lastUpdate < Updated change →
  r ≠ OutOfFuel ∧
  ∀ pending', r = Returns pending' →
    ∃ ext, pending' = pending ++ ext ∧ Forall (actionable lastUpdate) ext.
Proof.
  unfold classify, parseStamp. intros Hc Hup.
  destruct (String.eqb_spec (Status change) Merged) as [Hm|Hm].
  { destruct (Submitted change) as [t|] eqn:Hs; [|by inversion Hc].
    destruct (After t lastUpdate) eqn:Ha; simpl in Hc; inversion Hc; subst.
    - apply After_true in Ha. split; [done|]. intros ? [= <-].
      exists [change]. split; [done|]. apply Forall_singleton.
      split; [done|]. left. split; [done|]. by exists t.
    - split; [done|]. intros ? [= <-]. exists []. by rewrite app_nil_r. }
  destruct (String.eqb_spec (Status change) New) as [Hn|Hn].
  2:{ inversion Hc; subst. split; [done|]. intros ? [= <-]. exists [].
      by rewrite app_nil_r. }
  destruct (Revisions change !! CurrentRevision change) as [rev|] eqn:Hrev.
  2:{ inversion Hc; subst. split; [done|]. intros ? [= <-]. exists [].
      by rewrite app_nil_r. }
  destruct (injectPatchsetMessages change g) as [r1 g1] eqn:Hi.
  apply injectPatchsetMessages_change in Hi as [Hfuel Hch].
  destruct r1 as [[change' e]|p|]; [|by inversion Hc|done].
  specialize (Hch _ _ eq_refl).
  destruct (newMessages lastUpdate rev (Messages change')) eqn:Hnm;
    destruct (After (rev_Created rev) lastUpdate) eqn:Ha; simpl in Hc;
    inversion Hc; subst r g'; (split; [done|]); intros ? [= <-].
  4:{ exists []. by rewrite app_nil_r. }
  all: exists [change']; (split; [done|]); apply Forall_singleton;
    rewrite Hch; (split; [done|]); right; (split; [done|]);
    exists rev; (split; [done|]); simpl.
  - left. by apply newMessages_true.
  - left. by apply newMessages_true.
  - right. by apply After_true.
Qed.

Lemma rangeChanges_actionable lastUpdate changes pending g r g' :
  rangeChanges lastUpdate changes pending g = (r, g') →
  r ≠ OutOfFuel ∧
  ∀ e pending', r = Returns (e, pending') →
    ∃ ext, pending' = pending ++ ext ∧ Forall (actionable lastUpdate) ext.
Proof.
  revert pending g. induction changes as [|change rest IH]; intros pending g; simpl.
  { intros [= <- <-]. split; [done|]. intros ? ? [= <- <-]. exists [].
    by rewrite app_nil_r. }
  unfold parseStamp. destruct (After (Updated change) lastUpdate) eqn:Ha; simpl.
  2:{ intros [= <- <-]. split; [done|]. intros ? ? [= <- <-]. exists [].
      by rewrite app_nil_r. }
  apply After_true in Ha.
  destruct (classify lastUpdate change pending g) as [r1 g1] eqn:Hc.
  apply classify_actionable in Hc as [Hfuel Hc]; [|done].
  destruct r1 as [pending1|p|]; [|by intros [= <- <-]|done].
  destruct (Hc _ eq_refl) as (ext1 & -> & Hext1).
  intros Hr. apply IH in Hr as [Hfuel' Hr]. split; [done|].
  intros e pending' ->. destruct (Hr _ _ eq_refl) as (ext2 & -> & Hext2).
  exists (ext1 ++ ext2). split; [by rewrite app_assoc|by apply Forall_app].
Qed.

(** The loop over a page, on a page split in two. *)
Lemma rangeChanges_app lastUpdate pre rest pending g :
  rangeChanges lastUpdate (pre ++ rest) pending g =
  match rangeChanges lastUpdate pre pending g with
  | (Returns (NextPage, pending1), g1) => rangeChanges lastUpdate rest pending1 g1
  | other => other
  end.
Proof.
  revert pending g. induction pre as [|change pre IH]; intros pending g; simpl; [done|].
  destruct (negb _); [done|].
  destruct (classify lastUpdate change pending g) as [[pending1|p|] g1]; [|done..].
  apply IH.
Qed.

(** A page that is gone through to its end holds only changes updated
    after the watermark. *)
Lemma rangeChanges_NextPage lastUpdate changes pending g pending' g' :
  rangeChanges lastUpdate changes pending g = (Returns (NextPage, pending'), g') →
  Forall (λ c, lastUpdate < Updated c) changes.
Proof.
  revert pending g. induction changes as [|change rest IH]; intros pending g; simpl.
  { by intros _. }
  unfold parseStamp. destruct (After (Updated change) lastUpdate) eqn:Ha; simpl; [|done].
  apply After_true in Ha.
  destruct (classify lastUpdate change pending g) as [[pending1|p|] g1]; [|done..].
  intros Hr. constructor; [done|]. by eapply IH.
Qed.

Lemma queryLoop_actionable fuel opt lastUpdate rateLimit start pending g r g' :
  queryLoop fuel opt lastUpdate rateLimit start pending g = (r, g') →
  ∀ result, r = Returns (result, None) →
    ∃ ext, result = pending ++ ext ∧ Forall (actionable lastUpdate) ext.
Proof.
  revert start pending g. induction fuel as [|fuel IH]; intros start pending g; simpl.
  { by intros [= <- <-]. }
  destruct (QueryChanges (pageOptions opt rateLimit start) g) as [[[changes resp] err] g1].
  destruct err as [e|]; [by intros [= <- <-]|].
  destruct changes as [[|change page]|].
  1,3: intros [= <- <-] ? [= <-]; exists []; by rewrite app_nil_r.
  destruct (rangeChanges lastUpdate (change :: page) pending g1) as [r1 g2] eqn:Hr.
  apply rangeChanges_actionable in Hr as [Hfuel Hr].
  destruct r1 as [[e pending1]|p|]; [|by intros [= <- <-]..].
  destruct (Hr _ _ eq_refl) as (ext1 & -> & Hext1). destruct e.
  - intros Hl result ->. destruct (IH _ _ _ Hl _ eq_refl) as (ext2 & -> & Hext2).
    exists (ext1 ++ ext2). split; [by rewrite app_assoc|by apply Forall_app].
  - intros [= <- <-] ? [= <-]. by exists ext1.
Qed.

End PollerFacts.

(** ** The calls that the poller makes, seen by a recording gateway *)

Section Recorded.
Context {G : Type} `{!Gerrit G}.
Implicit Types g : recorded G.

Lemma pageRequests_app cs1 cs2 :
  pageRequests (cs1 ++ cs2) = pageRequests cs1 ++ pageRequests cs2.
Proof. apply omap_app. Qed.

Lemma commentRequests_app cs1 cs2 :
  commentRequests (cs1 ++ cs2) = commentRequests cs1 ++ commentRequests cs2.
Proof. apply omap_app. Qed.

Lemma pageRequests_comments (ids : list string) :
  pageRequests (CallListChangeComments <$> ids) = [].
Proof. induction ids as [|i ids IH]; [done|]. simpl. exact IH. Qed.

Lemma commentRequests_comments (ids : list string) :
  commentRequests (CallListChangeComments <$> ids) = ids.
Proof. induction ids as [|i ids IH]; [done|]. simpl. by f_equal. Qed.

(** The recorder is transparent: the code behaves on a recording gateway
    as on the gateway that is recorded. *)
Lemma injectPatchsetMessages_inner change g :
  prod_map id inner (injectPatchsetMessages change g)
  = injectPatchsetMessages change (inner g).
Proof.
  unfold injectPatchsetMessages. simpl.
  destruct (ListChangeComments (ID change) (inner g)) as [[[out resp] err] g1].
  destruct err as [e|]; [done|]. destruct out as [outer|]; [|done].
  destruct (outer !! "/PATCHSET_LEVEL") as [comments|]; [|done].
  by destruct (appendComments comments (Messages change) false) as [[ms changed]|].
Qed.

Lemma classify_inner lastUpdate change pending g :
  prod_map id inner (classify lastUpdate change pending g)
  = classify lastUpdate change pending (inner g).
Proof.
  unfold classify. destruct (String.eqb (Status change) Merged).
  { destruct (Submitted change) as [t|]; [|done]. by destruct (negb _). }
  destruct (String.eqb (Status change) New); [|done].
  destruct (Revisions change !! CurrentRevision change) as [rev|]; [|done].
  rewrite <- injectPatchsetMessages_inner.
  destruct (injectPatchsetMessages change g) as [[[change' e]|p|] g1]; [|done..].
  simpl. by destruct (_ && _).
Qed.

Lemma rangeChanges_inner lastUpdate changes pending g :
  prod_map id inner (rangeChanges lastUpdate changes pending g)
  = rangeChanges lastUpdate changes pending (inner g).
Proof.
  revert pending g. induction changes as [|change rest IH]; intros pending g; simpl.
  { done. }
  destruct (negb _); [done|]. rewrite <- classify_inner.
  destruct (classify lastUpdate change pending g) as [[pending1|p|] g1]; [|done..].
  simpl. apply IH.
Qed.

Lemma queryLoop_inner fuel opt lastUpdate rateLimit start pending g :
  prod_map id inner (queryLoop fuel opt lastUpdate rateLimit start pending g)
  = queryLoop fuel opt lastUpdate rateLimit start pending (inner g).
Proof.
  revert start pending g. induction fuel as [|fuel IH]; intros start pending g; simpl.
  { done. }
  destruct (QueryChanges (pageOptions opt rateLimit start) (inner g))
    as [[[changes resp] err] g1].
  destruct err as [e|]; [done|].
  destruct changes as [[|change page]|]; [done| |done].
  set (g1' := {| inner := g1; calls := _ |}).
  change g1 with (inner g1'). rewrite <- rangeChanges_inner.
  destruct (rangeChanges lastUpdate (change :: page) pending g1')
    as [[[[] pending1]|p|] g2]; [|done..].
  apply IH.
Qed.

Lemma injectPatchsetMessages_calls change g r g' :
  injectPatchsetMessages change g = (r, g') →
  calls g' = calls g ++ [CallListChangeComments (ID change)].
Proof.
  unfold injectPatchsetMessages. simpl.
  destruct (ListChangeComments (ID change) (inner g)) as [[[out resp] err] g1].
  destruct err as [e|]; [by intros [= <- <-]|].
  destruct out as [outer|]; [|by intros [= <- <-]].
  destruct (outer !! "/PATCHSET_LEVEL") as [comments|]; [|by intros [= <- <-]].
  destruct (appendComments comments (Messages change) false) as [[ms changed]|];
    by intros [= <- <-].
Qed.

Lemma classify_calls lastUpdate change pending g r g' :
  classify lastUpdate change pending g = (r, g') →
  calls g' =
  calls g ++ (if asksComments change then [CallListChangeComments (ID change)] else []).
Proof.
  unfold classify, asksComments.
  destruct (String.eqb (Status change) Merged); simpl.
  { rewrite app_nil_r. destruct (Submitted change) as [t|]; [|by intros [= <- <-]].
    destruct (negb _); by intros [= <- <-]. }
  destruct (String.eqb (Status change) New); simpl.
  2:{ rewrite app_nil_r. by intros [= <- <-]. }
  destruct (Revisions change !! CurrentRevision change) as [rev|] eqn:Hrev.
  2:{ rewrite bool_decide_eq_false_2; [|by intros [? ?]].
      rewrite app_nil_r. by intros [= <- <-]. }
  rewrite bool_decide_eq_true_2; [|by eexists].
  destruct (injectPatchsetMessages change g) as [r1 g1] eqn:Hi.
  apply injectPatchsetMessages_calls in Hi.
  destruct r1 as [[change' e]|p|]; [|by intros [= <- <-]..].
  destruct (_ && _); by intros [= <- <-].
Qed.

Lemma rangeChanges_calls lastUpdate changes pending g pending' g' :
  rangeChanges lastUpdate changes pending g = (Returns (NextPage, pending'), g') →
  calls g' =
  calls g ++ (CallListChangeComments <$> (ID <$> filter (λ c, asksComments c) changes)).
Proof.
  revert pending g. induction changes as [|change rest IH]; intros pending g; simpl.
  { intros [= <- <-]. by rewrite app_nil_r. }
  destruct (negb _); [done|].
  destruct (classify lastUpdate change pending g) as [r1 g1] eqn:Hc.
  apply classify_calls in Hc. destruct r1 as [pending1|p|]; [|done..].
  intros Hr. rewrite (IH _ _ Hr), Hc.
  destruct (asksComments change) eqn:Ha.
  - rewrite filter_cons_True; [|by apply Is_true_true]. simpl. by rewrite <- app_assoc.
  - rewrite filter_cons_False; [|by apply Is_true_false]. by rewrite app_nil_r.
Qed.

End Recorded.

(** ** Early termination of the paging *)

Section EarlyTermination.
Context {G : Type} `{!Gerrit G}.
Implicit Types g : recorded G.

(** C1. In any iteration of the paging loop of a project poll, when the
    page just served is [pre ++ c :: post], the changes of [pre] have been
    classified (leaving [pending']) and [c] is not updated strictly after
    [lastUpdate], then [c] is the first such change of the page and the
    poller returns exactly [pending'] without error.  The gateway, which
    records its calls, has by then received this page's request and no
    later one, and comment requests for changes of [pre] only: nothing of
    [c] or [post] is classified. *)
Theorem C1_stops_at_first_stale_change
    fuel opt lastUpdate rateLimit start pending g resp g1 pre c post pending' g2 :
  QueryChanges (pageOptions opt rateLimit start) g
    = (Some (pre ++ c :: post), resp, None, g1) →
  rangeChanges lastUpdate pre pending g1 = (Returns (NextPage, pending'), g2) →
  ¬ lastUpdate < Updated c →
  Forall (λ x, lastUpdate < Updated x) pre ∧
  queryLoop (S fuel) opt lastUpdate rateLimit start pending g
    = (Returns (pending', None), g2) ∧
  pageRequests (calls g2)
    = pageRequests (calls g) ++ [pageOptions opt rateLimit start] ∧
  commentRequests (calls g2)
    = commentRequests (calls g) ++ (ID <$> filter (λ x, asksComments x) pre).
Proof.
  intros Hq Hpre Hstale.
  assert (Hpage : rangeChanges lastUpdate (pre ++ c :: post) pending g1
                  = (Returns (Return, pending'), g2)).
  { rewrite rangeChanges_app, Hpre. simpl. unfold parseStamp.
    assert (After (Updated c) lastUpdate = false) as ->; [|done].
    apply After_false. lia. }
  split; [exact (rangeChanges_NextPage _ _ _ _ _ _ Hpre)|]. split.
  - cbn [queryLoop]. rewrite Hq.
    destruct (pre ++ c :: post) eqn:Hnil; [by destruct pre|].
    by rewrite Hpage.
  - apply rangeChanges_calls in Hpre. rewrite Hpre.
    assert (calls g1 = calls g ++ [CallQueryChanges (pageOptions opt rateLimit start)])
      as ->.
    { simpl in Hq.
      destruct (QueryChanges (pageOptions opt rateLimit start) (inner g)) as [reply g0].
      by inversion Hq. }
    rewrite !pageRequests_app, !commentRequests_app.
    rewrite pageRequests_comments, commentRequests_comments. simpl.
    by rewrite !app_nil_r.
Qed.

End EarlyTermination.

(** A page gone through to its end is followed by the request for the next
    page, at the offset after it. *)
Lemma queryLoop_NextPage {G} `{!Gerrit G}
    fuel opt lastUpdate rateLimit start pending (g : G) resp g1 page pending' g2 :
  QueryChanges (pageOptions opt rateLimit start) g = (Some page, resp, None, g1) →
  page ≠ [] →
  rangeChanges lastUpdate page pending g1 = (Returns (NextPage, pending'), g2) →
  queryLoop (S fuel) opt lastUpdate rateLimit start pending g
  = queryLoop fuel opt lastUpdate rateLimit
      (wrap_int (start + Z.of_nat (length page))) pending' g2.
Proof.
  intros Hq Hne Hr. cbn [queryLoop]. rewrite Hq.
  destruct page as [|c page]; [done|]. by rewrite Hr.
Qed.

(** The poll of [threePages] requests the pages at the offsets 0 and 2 and
    stops at the old change of the second page: the third page is never
    requested. *)
Example poll_threePages :
  handlerQueryChangesForProject 5 "ci-tools" sampleWatermark 2 [] threePages
  = (Returns ([mergedFresh; newFresh], None),
     {| inner := {| pages := [okPage [abandoned]]; commentsOf := noComments |};
        calls := [CallQueryChanges (pageOptions sampleQuery 2 0);
                  CallListChangeComments "new-fresh";
                  CallQueryChanges (pageOptions sampleQuery 2 2)] |}).
Proof. reflexivity. Qed.

(** The second page of [samplePages] is never requested: the first page
    holds a change that is not updated after the watermark. *)
Lemma C1_stops_at_first_stale_change_witness :
  Forall (λ x, sampleWatermark < Updated x) [mergedFresh; newFresh] ∧
  queryLoop 1 sampleQuery sampleWatermark 50 0 [] samplePages
    = (Returns ([mergedFresh; newFresh], None),
       {| inner := {| pages := [okPage [abandoned]]; commentsOf := noComments |};
          calls := [CallQueryChanges (pageOptions sampleQuery 50 0);
                    CallListChangeComments "new-fresh"] |}) ∧
  pageRequests [CallQueryChanges (pageOptions sampleQuery 50 0);
                CallListChangeComments "new-fresh"]
    = [pageOptions sampleQuery 50 0] ∧
  commentRequests [CallQueryChanges (pageOptions sampleQuery 50 0);
                   CallListChangeComments "new-fresh"]
    = ["new-fresh"].
Proof.
  refine (C1_stops_at_first_stale_change 0 sampleQuery sampleWatermark 50 0 []
            samplePages None _ [mergedFresh; newFresh] oldChange [mergedStale]
            _ _ _ _ _).
  - reflexivity.
  - reflexivity.
  - unfold sampleWatermark. simpl. lia.
Defined.

(** ** Classification of a change that the poll reaches

    One iteration of the paging loop, entered with [pending] at offset
    [start]: the gateway serves the page [pre ++ c :: post], the changes of
    [pre] are classified, which leaves [pending1], and [c], updated after
    the watermark, is classified next. *)

Section Reached.
Context {G : Type} `{!Gerrit G}.
Variables (fuel : nat) (opt : QueryChangeOptions) (lastUpdate rateLimit start : Z).
Variables (pending pending1 : list ChangeInfo) (g g1 g2 : G).
Variables (resp : option (option string)) (pre post : list ChangeInfo) (c : ChangeInfo).
Hypothesis served :
  QueryChanges (pageOptions opt rateLimit start) g
    = (Some (pre ++ c :: post), resp, None, g1).
Hypothesis reached :
  rangeChanges lastUpdate pre pending g1 = (Returns (NextPage, pending1), g2).
Hypothesis updated : lastUpdate < Updated c.

(** A poll that returns a sequence has classified [c], and what it returns
    is what that classification left, followed by actionable changes. *)
Lemma queryLoop_reached result g' :
  queryLoop (S fuel) opt lastUpdate rateLimit start pending g
    = (Returns (result, None), g') →
  ∃ pending2 g3 ext,
    classify lastUpdate c pending1 g2 = (Returns pending2, g3) ∧
    result = pending2 ++ ext ∧ Forall (actionable lastUpdate) ext.
Proof using served reached updated.
  cbn [queryLoop]. rewrite served.
  destruct (pre ++ c :: post) as [|x page] eqn:Hpage; [by destruct pre|].
  rewrite <- Hpage, rangeChanges_app, reached. cbn [rangeChanges].
  unfold parseStamp at 1.
  assert (After (Updated c) lastUpdate = true) as -> by by apply After_true.
  simpl negb. cbv iota.
  destruct (classify lastUpdate c pending1 g2) as [[pending2|p|] g3] eqn:Hc; [|done..].
  destruct (rangeChanges lastUpdate post pending2 g3) as [r1 g4] eqn:Hr.
  apply rangeChanges_actionable in Hr as [_ Hr].
  destruct r1 as [[e pending3]|p|]; [|done..].
  destruct (Hr _ _ eq_refl) as (ext1 & -> & Hext1). destruct e.
  - intros Hl. apply queryLoop_actionable with (result := result) in Hl as (ext2 & -> & ?);
      [|done].
    exists pending2, g3, (ext1 ++ ext2). split; [done|].
    split; [by rewrite app_assoc|by apply Forall_app].
  - intros [= <- <-]. by exists pending2, g3, ext1.
Qed.

(** The classification of a merged change. *)
Lemma classify_Merged change pending0 g0 t :
  Status change = Merged → Submitted change = Some t →
  classify lastUpdate change pending0 g0
  = (Returns (if After t lastUpdate then pending0 ++ [change] else pending0), g0).
Proof.
  intros Hst Hsub. unfold classify, parseStamp.
  rewrite Hst, String.eqb_refl, Hsub. by destruct (After t lastUpdate).
Qed.

(** The classification of an open change with its current revision. *)
Lemma classify_New change pending0 g0 rev change' e g0' :
  Status change = New →
  Revisions change !! CurrentRevision change = Some rev →
  injectPatchsetMessages change g0 = (Returns (change', e), g0') →
  classify lastUpdate change pending0 g0
  = (Returns (if newMessages lastUpdate rev (Messages change')
                 || After (rev_Created rev) lastUpdate
              then pending0 ++ [change'] else pending0), g0').
Proof.
  intros Hst Hrev Hinj. unfold classify, parseStamp.
  rewrite Hst. simpl. rewrite Hrev, Hinj.
  by destruct (newMessages _ _ _), (After _ _).
Qed.



End Reached.

(** The poll of [mergedPages] returns the fresh merge alone. *)
Example poll_mergedPages :
  handlerQueryChangesForProject 1 "ci-tools" sampleWatermark 50 [] mergedPages
  = (Returns ([mergedFresh], None), {| pages := []; commentsOf := noComments |}).
Proof. reflexivity. Qed.


(** The poll of [commentedPages] returns [newCommented] with its comments
    merged: the comment at T+1 makes it actionable.  [newStale] is left
    out. *)
Example poll_commentedPages :
  handlerQueryChangesForProject 2 "ci-tools" sampleWatermark 50 [] commentedPages
  = (Returns ([newCommentedMerged], None),
     {| pages := []; commentsOf := sampleComments |}).
Proof. reflexivity. Qed.


(** ** The stable sort *)

Section SliceStableFacts.
Context {A : Type} (less : A → A → bool) (key : A → Z).
Hypothesis less_key : ∀ a b, less a b = (key a <? key b).

Lemma insertStable_perm x l : insertStable less x l ≡ₚ x :: l.
Proof.
  induction l as [|y l IH]; simpl; [done|].
  destruct (less y x); [|done]. rewrite IH. apply Permutation_swap.
Qed.

Lemma SliceStable_perm l : SliceStable less l ≡ₚ l.
Proof.
  induction l as [|x l IH]; simpl; [done|]. by rewrite insertStable_perm, IH.
Qed.

Lemma insertStable_sorted x l :
  StronglySorted (λ a b, key a ≤ key b) l →
  StronglySorted (λ a b, key a ≤ key b) (insertStable less x l).
Proof using less_key.
  induction 1 as [|y l Hs IH Hy]; simpl.
  { repeat constructor. }
  rewrite less_key. destruct (key y <? key x) eqn:Hlt.
  - apply Z.ltb_lt in Hlt. constructor; [done|].
    rewrite insertStable_perm. constructor; [lia|done].
  - apply Z.ltb_ge in Hlt. constructor; [by constructor|].
    constructor; [done|]. eapply Forall_impl; [exact Hy|]. simpl. intros. lia.
Qed.

Lemma SliceStable_sorted l : StronglySorted (λ a b, key a ≤ key b) (SliceStable less l).
Proof using less_key.
  induction l as [|x l IH]; simpl; [constructor|]. by apply insertStable_sorted.
Qed.

(** Stability: the elements with a given key keep their order. *)
Lemma insertStable_stable t x l :
  filter (λ a, key a = t) (insertStable less x l) = filter (λ a, key a = t) (x :: l).
Proof using less_key.
  induction l as [|y l IH]; simpl; [done|].
  rewrite less_key. destruct (key y <? key x) eqn:Hlt; [|done].
  apply Z.ltb_lt in Hlt. rewrite !filter_cons, IH, !filter_cons.
  repeat case_decide; (done || lia).
Qed.

Lemma SliceStable_stable t l :
  filter (λ a, key a = t) (SliceStable less l) = filter (λ a, key a = t) l.
Proof using less_key.
  induction l as [|x l IH]; simpl; [done|].
  by rewrite insertStable_stable, !filter_cons, IH.
Qed.
(** A list sorted by key is determined by the elements it has for each
    key, in their order: the result of a stable sort is unique. *)
Lemma sorted_stable_unique l1 l2 :
  StronglySorted (λ a b, key a ≤ key b) l1 →
  StronglySorted (λ a b, key a ≤ key b) l2 →
  (∀ t, filter (λ a, key a = t) l1 = filter (λ a, key a = t) l2) →
  l1 = l2.
Proof.
  intros Hs1. revert l2. induction Hs1 as [|x l1 Hs1 IH Hx]; intros l2 Hs2 Hf.
  { destruct l2 as [|y l2]; [done|]. specialize (Hf (key y)).
    rewrite filter_nil, filter_cons_True in Hf by done. done. }
  destruct l2 as [|y l2].
  { specialize (Hf (key x)). rewrite filter_nil, filter_cons_True in Hf by done. done. }
  apply StronglySorted_inv in Hs2 as [Hs2 Hy].
  assert (key y ≤ key x) as Hyx.
  { assert (x ∈ y :: l2) as Hin.
    { eapply (list_elem_of_filter (λ a, key a = key x)). rewrite <- Hf.
      rewrite filter_cons_True by done. left. }
    apply elem_of_cons in Hin as [->|Hin]; [lia|].
    rewrite Forall_forall in Hy. by apply Hy. }
  assert (key x ≤ key y) as Hxy.
  { assert (y ∈ x :: l1) as Hin.
    { eapply (list_elem_of_filter (λ a, key a = key y)). rewrite Hf.
      rewrite filter_cons_True by done. left. }
    apply elem_of_cons in Hin as [->|Hin]; [lia|].
    rewrite Forall_forall in Hx. by apply Hx. }
  assert (key x = key y) as Hk by lia.
  pose proof (Hf (key x)) as Hfx.
  rewrite !filter_cons_True in Hfx by done. inversion Hfx as [[Hxy' Htail]].
  f_equal. apply IH; [done|]. intros t.
  destruct (decide (key x = t)) as [<-|Hne]; [by rewrite Hk|].
  specialize (Hf t). rewrite !filter_cons_False in Hf by congruence. done.
Qed.

(** Any stable sort for [less] returns what [SliceStable] returns. *)
Lemma SliceStable_unique l l' :
  StronglySorted (λ a b, key a ≤ key b) l' →
  (∀ t, filter (λ a, key a = t) l' = filter (λ a, key a = t) l) →
  l' = SliceStable less l.
Proof using less_key.
  intros Hs Hf. apply sorted_stable_unique; [done|apply SliceStable_sorted|].
  intros t. by rewrite Hf, SliceStable_stable.
Qed.

End SliceStableFacts.

Lemma messageLess_Date a b : messageLess a b = (Date a <? Date b).
Proof. done. Qed.

(** ** Merging the patchset-level comments *)

Section Injection.
Context {G : Type} `{!Gerrit G}.

Lemma appendComments_Some comments messages changed :
  Forall (λ c, is_Some (c_Updated c)) comments →
  ∃ synthetic,
    appendComments comments messages changed
      = Some (messages ++ synthetic, changed || bool_decide (comments ≠ [])) ∧
    Forall2 messageFor comments synthetic.
Proof.
  intros Hall. revert messages changed.
  induction Hall as [|c comments [t Ht] _ IH]; intros messages changed; simpl.
  { exists []. rewrite app_nil_r, orb_false_r. by split. }
  rewrite Ht. destruct (IH (messages ++ [messageOfComment c t]) true)
    as (synthetic & -> & Hsyn).
  exists (messageOfComment c t :: synthetic). split.
  - rewrite <- app_assoc. simpl. by rewrite orb_true_r.
  - by constructor.
Qed.

(** C8. When the comment listing of a change has patchset-level
    comments, at least one, each with its timestamp,
    [injectPatchsetMessages] returns without error and leaves as the
    messages of the change its former messages and one synthetic message
    per comment (with the author, timestamp, text and revision number of
    the comment), sorted by timestamp in non-decreasing order, and messages
    with equal timestamps keep their relative order.  In particular,
    comments at T+1 and T-1 and one native message at T end in the order
    T-1, T, T+1. *)
Theorem C8_injected_messages_sorted_stably change g outer resp g' comments :
  ListChangeComments (ID change) g = (Some outer, resp, None, g') →
  outer !! "/PATCHSET_LEVEL" = Some comments →
  comments ≠ [] →
  Forall (λ c, is_Some (c_Updated c)) comments →
  ∃ change' synthetic,
    injectPatchsetMessages change g = (Returns (change', None), g') ∧
    Forall2 messageFor comments synthetic ∧
    Messages change' ≡ₚ Messages change ++ synthetic ∧
    StronglySorted (λ a b, Date a ≤ Date b) (Messages change') ∧
    (∀ t, filter (λ m, Date m = t) (Messages change')
          = filter (λ m, Date m = t) (Messages change ++ synthetic)) ∧
    (∀ T native later earlier,
       Messages change = [native] → Date native = T →
       comments = [later; earlier] →
       c_Updated later = Some (T + 1) → c_Updated earlier = Some (T - 1) →
       Messages change'
         = [messageOfComment earlier (T - 1); native;
            messageOfComment later (T + 1)]).
Proof.
  intros Hreply Hlevel Hne Hall.
  destruct (appendComments_Some comments (Messages change) false Hall)
    as (synthetic & Happ & Hsyn).
  rewrite bool_decide_eq_true_2 in Happ by done. simpl in Happ.
  exists (with_Messages change
            (SliceStable messageLess (Messages change ++ synthetic))), synthetic.
  split; [|split; [done|split; [|split; [|split]]]]; simpl.
  - unfold injectPatchsetMessages. by rewrite Hreply, Hlevel, Happ.
  - apply SliceStable_perm.
  - apply (SliceStable_sorted messageLess Date messageLess_Date).
  - intros t. apply (SliceStable_stable messageLess Date messageLess_Date).
  - intros T native later earlier Hms HT -> Hl He.
    rewrite Hms in Happ. simpl in Happ. rewrite Hl, He in Happ. simpl in Happ.
    simplify_eq. rewrite Hms. simpl.
    set (T := Date native) in *.
    assert (messageLess (messageOfComment earlier (T - 1))
              (messageOfComment later (T + 1)) = true) as ->.
    { unfold messageLess, Before. simpl. lia. }
    simpl.
    assert (messageLess (messageOfComment earlier (T - 1)) native = true) as ->.
    { unfold messageLess, Before. simpl. lia. }
    assert (messageLess (messageOfComment later (T + 1)) native = false) as ->.
    { unfold messageLess, Before. simpl. lia. }
    done.
Qed.

End Injection.

(** The comments of [newCommented], at T+1 and T-1 for T = 1000, are merged
    around its native message at T. *)
Lemma C8_injected_messages_sorted_stably_witness :
  ∃ change' synthetic,
    injectPatchsetMessages newCommented commentedPages
      = (Returns (change', None), commentedPages) ∧
    Forall2 messageFor [lateComment; earlyComment] synthetic ∧
    Messages change' ≡ₚ Messages newCommented ++ synthetic ∧
    StronglySorted (λ a b, Date a ≤ Date b) (Messages change') ∧
    (∀ t, filter (λ m, Date m = t) (Messages change')
          = filter (λ m, Date m = t) (Messages newCommented ++ synthetic)) ∧
    (∀ T native later earlier,
       Messages newCommented = [native] → Date native = T →
       [lateComment; earlyComment] = [later; earlier] →
       c_Updated later = Some (T + 1) → c_Updated earlier = Some (T - 1) →
       Messages change'
         = [messageOfComment earlier (T - 1); native; messageOfComment later (T + 1)]).
Proof.
  refine (C8_injected_messages_sorted_stably newCommented commentedPages
            {[ "/PATCHSET_LEVEL" := [lateComment; earlyComment] ]} None
            commentedPages [lateComment; earlyComment] _ _ _ _).
  - reflexivity.
  - reflexivity.
  - discriminate.
  - repeat constructor; by eexists.
Defined.

(** ** The registry: unregistered instances and projects *)

Section Unregistered.
Context {G Env : Type} `{!Gerrit G}.
Implicit Types c : Client G Env.

(** C6. Whatever the sync state and the rate limit,
    [QueryChangesForInstance] on an instance without handler returns the
    empty sequence (it has no error result) and leaves the registry as it
    is, whereas [QueryChangesForProject] returns a not-found error, for an
    instance without handler and for a project that the handler of the
    instance does not watch. *)
Theorem C6_unregistered_soft_miss_and_not_found
    fuel timeNow range inst project lastState lastUpdate rateLimit additionalFilters c :
  (handlers c !! inst = None →
     QueryChangesForInstance fuel timeNow range inst lastState rateLimit c
       = (Returns [], c) ∧
     QueryChangesForProject fuel inst project lastUpdate rateLimit additionalFilters c
       = (Returns ([], Some (ErrInstanceNotFound inst)), c)) ∧
  (∀ h, handlers c !! inst = Some h → projects h !! project = None →
     QueryChangesForProject fuel inst project lastUpdate rateLimit additionalFilters c
       = (Returns ([], Some (ErrProjectNotRegistered project inst)), c)).
Proof.
  split.
  - intros Hnone. unfold QueryChangesForInstance, QueryChangesForProject.
    by rewrite Hnone.
  - intros h Hh Hp. unfold QueryChangesForProject. by rewrite Hh, Hp.
Qed.

End Unregistered.

Lemma C6_unregistered_soft_miss_and_not_found_witness :
  (handlers sampleClient !! "gerrit.elsewhere" = None ∧
   QueryChangesForInstance 5 2000 map_to_list "gerrit.elsewhere" ∅ 50 sampleClient
     = (Returns [], sampleClient) ∧
   QueryChangesForProject 5 "gerrit.elsewhere" "ci-tools" sampleWatermark 50 []
     sampleClient
     = (Returns ([], Some (ErrInstanceNotFound "gerrit.elsewhere")), sampleClient)) ∧
  (handlers sampleClient !! "gerrit.example" = Some sampleHandler ∧
   projects sampleHandler !! "release" = None ∧
   QueryChangesForProject 5 "gerrit.example" "release" sampleWatermark 50 [] sampleClient
     = (Returns ([], Some (ErrProjectNotRegistered "release" "gerrit.example")),
        sampleClient)).
Proof.
  split.
  - split; [reflexivity|].
    exact (proj1 (C6_unregistered_soft_miss_and_not_found 5 2000 map_to_list
                    "gerrit.elsewhere" "ci-tools" ∅ sampleWatermark 50 [] sampleClient)
             eq_refl).
  - split; [reflexivity|]. split; [reflexivity|].
    exact (proj2 (C6_unregistered_soft_miss_and_not_found 5 2000 map_to_list
                    "gerrit.example" "release" ∅ sampleWatermark 50 [] sampleClient)
             sampleHandler eq_refl eq_refl).
Defined.

(** ** Credential rotation *)

Section Rotation.
Context {G Env : Type} `{!Gerrit G}.
Implicit Types c : Client G Env.

(** A tick that reads the remembered token changes nothing, whether the
    read failed or not. *)
Lemma authenticateOnce_same_token env c auth err :
  authentication c = Some auth →
  auth env = (previousToken c, err) →
  authenticateOnce env c = Some c.
Proof.
  intros Ha Hr. unfold authenticateOnce. by rewrite Ha, Hr, String.eqb_refl.
Qed.

(** A tick that reads another value installs it on every handler, whether
    the read failed or not: the error of the read is not looked at again
    after it is logged. *)
Lemma authenticateOnce_other_token env c auth current err :
  authentication c = Some auth →
  auth env = (current, err) →
  current ≠ previousToken c →
  ∃ c', authenticateOnce env c = Some c' ∧
        previousToken c' = current ∧
        ∀ inst, handlers c' !! inst =
                (λ h, with_gc h (SetCookieAuth "o" current (gc h))) <$> handlers c !! inst.
Proof.
  intros Ha Hr Hne. unfold authenticateOnce. rewrite Ha, Hr.
  destruct (String.eqb_spec current (previousToken c)) as [?|_]; [done|].
  eexists. split; [done|]. split; [done|]. intros inst. simpl.
  by rewrite lookup_fmap.
Qed.

End Rotation.

(** C4. A tick of the rotation whose read fails, on a registry that
    remembers the token ["old-token"] and has one handler: the
    authentication function returns the empty string with its error, as
    those of [Authenticate] do; the remembered token becomes the empty
    string and the gateway of the handler receives [SetCookieAuth] with the
    empty string.
    The previous credential does not remain in place. *)
Theorem C4_failed_read_replaces_credential :
  ∃ c' h',
    authenticateOnce () sampleClient = Some c' ∧
    previousToken sampleClient = "old-token" ∧
    previousToken c' = EmptyString ∧
    handlers c' !! "gerrit.example" = Some h' ∧
    cookieCalls (calls (gc sampleHandler)) = [("o", "old-token")] ∧
    cookieCalls (calls (gc h')) = [("o", "old-token"); ("o", EmptyString)].
Proof.
  eexists _, _. split; [reflexivity|]. split; [reflexivity|].
  split; [reflexivity|]. split; [reflexivity|]. split; reflexivity.
Qed.

(** ** Reconfiguration *)

Section Reconfiguration.
Context {G Env : Type} `{!Gerrit G}.
Implicit Types c : Client G Env.
Implicit Types old acc : gmap string (gerritInstanceHandler G).
Implicit Types order : list (string * gmap string (option GerritQueryFilter)).

Lemma updateHandlers_lookup order old acc errs new errs' :
  NoDup order.*1 →
  updateHandlers order old acc errs = (new, errs') →
  ∀ i, new !! i =
       match (list_to_map order : gmap _ _) !! i with
       | None => acc !! i
       | Some ps =>
           match old !! i with
           | Some h => Some (with_projects h ps)
           | None =>
               match NewGerritClient i with
               | inr g => Some {| instance := i; projects := ps; gc := g |}
               | inl _ => acc !! i
               end
           end
       end.
Proof.
  revert acc errs. induction order as [|[j ps] rest IH]; intros acc errs Hnd; simpl.
  { by intros [= <- <-] i. }
  apply NoDup_cons in Hnd as [Hj Hnd].
  assert ((list_to_map rest : gmap _ _) !! j = None) as Hnone.
  { by apply not_elem_of_list_to_map_1. }
  intros Hu i.
  destruct (decide (i = j)) as [->|Hij].
  - rewrite lookup_insert_eq.
    destruct (old !! j) as [h|] eqn:Hold.
    + rewrite (IH _ _ Hnd Hu j), Hnone. by rewrite lookup_insert_eq.
    + destruct (NewGerritClient j) as [e|g0].
      * by rewrite (IH _ _ Hnd Hu j), Hnone.
      * rewrite (IH _ _ Hnd Hu j), Hnone. by rewrite lookup_insert_eq.
  - rewrite lookup_insert_ne by done.
    destruct (old !! j) as [h|] eqn:Hold.
    + rewrite (IH _ _ Hnd Hu i). by rewrite lookup_insert_ne.
    + destruct (NewGerritClient j) as [e|g0].
      * by rewrite (IH _ _ Hnd Hu i).
      * rewrite (IH _ _ Hnd Hu i). by rewrite lookup_insert_ne.
Qed.

Lemma updateHandlers_errors order old acc errs new errs' :
  updateHandlers order old acc errs = (new, errs') →
  ∃ more, errs' = errs ++ more ∧
    ∀ e, e ∈ more ↔
         ∃ i, i ∈ order.*1 ∧ old !! i = None ∧ NewGerritClient i = inl e.
Proof.
  revert acc errs. induction order as [|[j ps] rest IH]; intros acc errs; simpl.
  { intros [= <- <-]. exists []. rewrite app_nil_r. split; [done|].
    intros e. split; [by intros ?%elem_of_nil|]. by intros (i & ?%elem_of_nil & _). }
  destruct (old !! j) as [h|] eqn:Hold.
  { intros Hu. destruct (IH _ _ Hu) as (more & -> & Hmore). exists more.
    split; [done|]. intros e. rewrite Hmore. split.
    - intros (i & Hi & ?). exists i. split; [by right|done].
    - intros (i & [->|Hi]%elem_of_cons & Hn & ?); [congruence|]. by exists i. }
  destruct (NewGerritClient j) as [e0|g0] eqn:Hnew.
  - intros Hu. destruct (IH _ _ Hu) as (more & -> & Hmore). exists (e0 :: more).
    split; [by rewrite <- app_assoc|]. intros e. rewrite elem_of_cons, Hmore. split.
    + intros [->|(i & Hi & ?)]; [exists j; split; [by left|done]|].
      exists i. split; [by right|done].
    + intros (i & [->|Hi]%elem_of_cons & Hn & He).
      * left. congruence.
      * right. by exists i.
  - intros Hu. destruct (IH _ _ Hu) as (more & -> & Hmore). exists more.
    split; [done|]. intros e. rewrite Hmore. split.
    + intros (i & Hi & ?). exists i. split; [by right|done].
    + intros (i & [->|Hi]%elem_of_cons & Hn & ?); [congruence|]. by exists i.
Qed.


End Reconfiguration.


Example reconciled_handlers :
  handlers reconciled !! "gerrit.example"
    = Some (with_projects sampleHandler {[ "ci-tools" := Some releaseFilter ]}) ∧
  handlers reconciled !! "gerrit.retired" = None ∧
  handlers reconciled !! EmptyString = None.
Proof. by vm_compute. Qed.

(** ** Errors of a poll *)

Section PollErrors.
Context {G : Type} `{!Gerrit G}.

(** An error returned by the paging loop is the error of a page request,
    with the response body when there is one, and comes with no change. *)
Lemma queryLoop_error fuel opt lastUpdate rateLimit start pending g result e g' :
  queryLoop fuel opt lastUpdate rateLimit start pending g
    = (Returns (result, Some e), g') →
  result = [] ∧
  ∃ opt' g0 changes resp e0,
    QueryChanges opt' g0 = (changes, resp, Some e0, g') ∧
    e = responseBodyError e0 resp.
Proof.
  revert start pending g. induction fuel as [|fuel IH]; intros start pending g; simpl.
  { done. }
  destruct (QueryChanges (pageOptions opt rateLimit start) g)
    as [[[changes resp] err] g1] eqn:Hq.
  destruct err as [e0|].
  { intros [= <- <- <-]. split; [done|]. by eexists _, _, _, _, _. }
  destruct changes as [[|change page]|]; [done| |done].
  destruct (rangeChanges lastUpdate (change :: page) pending g1)
    as [[[[] pending1]|p|] g2]; [|done..].
  apply IH.
Qed.

End PollErrors.

(** ** The fan-out over the projects of a handler *)

Section FanOut.
Context {G : Type} `{!Gerrit G}.
Implicit Types order : list (string * option GerritQueryFilter).

(** A poll returns changes updated after its watermark only, and none
    with an error. *)
Lemma handlerQueryChangesForProject_updated
    fuel project lastUpdate rateLimit additionalFilters g changes e g' :
  handlerQueryChangesForProject fuel project lastUpdate rateLimit additionalFilters g
    = (Returns (changes, e), g') →
  Forall (λ c, lastUpdate < Updated c) changes.
Proof.
  unfold handlerQueryChangesForProject. intros Hl. destruct e as [e|].
  - by apply queryLoop_error in Hl as [-> _].
  - apply queryLoop_actionable with (result := changes) in Hl as (ext & -> & Hext);
      [|done].
    simpl. eapply Forall_impl; [exact Hext|]. by intros c [? _].
Qed.

Lemma queryProjects_app fuel timeNow lastState rateLimit before rest result g :
  queryProjects fuel timeNow lastState rateLimit (before ++ rest) result g =
  match queryProjects fuel timeNow lastState rateLimit before result g with
  | (Returns result1, g1) =>
      queryProjects fuel timeNow lastState rateLimit rest result1 g1
  | other => other
  end.
Proof.
  revert result g. induction before as [|[project filters] before IH];
    intros result g; simpl; [done|].
  destruct (handlerQueryChangesForProject _ _ _ _ _ g)
    as [[[changes [e|]]|p|] g1]; [apply IH|apply IH|done..].
Qed.

Lemma queryProjects_extends fuel timeNow lastState rateLimit order result g result' g' :
  queryProjects fuel timeNow lastState rateLimit order result g = (Returns result', g') →
  ∃ ext, result' = result ++ ext ∧
    Forall (λ c, ∃ project, project ∈ order.*1 ∧
                 default timeNow (lastState !! project) < Updated c) ext.
Proof.
  revert result g. induction order as [|[project filters] order IH];
    intros result g; simpl.
  { intros [= <- <-]. exists []. by rewrite app_nil_r. }
  destruct (handlerQueryChangesForProject _ _ _ _ _ g)
    as [[[changes e]|p|] g1] eqn:Hp; [|done..].
  apply handlerQueryChangesForProject_updated in Hp.
  assert (∀ ext, Forall (λ c, ∃ p, p ∈ order.*1 ∧
                   default timeNow (lastState !! p) < Updated c) ext →
                 Forall (λ c, ∃ p, p ∈ project :: order.*1 ∧
                   default timeNow (lastState !! p) < Updated c) ext) as Hweak.
  { intros ext Hf. eapply Forall_impl; [exact Hf|]. intros c (p & ? & ?). exists p.
    split; [by right|done]. }
  destruct e as [e|].
  - intros Hr. destruct (IH _ _ Hr) as (ext & -> & Hext). exists ext. auto.
  - intros Hr. destruct (IH _ _ Hr) as (ext & -> & Hext). exists (changes ++ ext).
    split; [by rewrite app_assoc|]. apply Forall_app. split; [|auto].
    eapply Forall_impl; [exact Hp|]. intros c Hc. exists project.
    split; [by left|]. by destruct (lastState !! project).
Qed.

(** C5. In [queryAllChanges], a project of the handler that the sync
    state does not hold is polled with the watermark [timeNow], the time
    read when [queryAllChanges] starts: the poll made for it is
    [QueryChangesForProject] with [lastUpdate = timeNow], and what
    [queryAllChanges] returns is [result1 ++ changes ++ result3], where
    [changes], the part from this project, holds only changes updated
    strictly after [timeNow]. *)
Theorem C5_unsynced_project_polled_from_now
    fuel timeNow range lastState rateLimit h project filters result h' :
  range (projects h) ≡ₚ map_to_list (projects h) →
  projects h !! project = Some filters →
  lastState !! project = None →
  queryAllChanges fuel timeNow range lastState rateLimit h = (Returns result, h') →
  ∃ before rest result1 g1 changes e g2 result3,
    range (projects h) = before ++ (project, filters) :: rest ∧
    queryProjects fuel timeNow lastState rateLimit before [] (gc h)
      = (Returns result1, g1) ∧
    handlerQueryChangesForProject fuel project timeNow rateLimit
      (queryStringsFromQueryFilter filters) g1 = (Returns (changes, e), g2) ∧
    Forall (λ c, timeNow < Updated c) changes ∧
    result = result1 ++ changes ++ result3.
Proof.
  intros Hperm Hp Hnone. unfold queryAllChanges.
  assert ((project, filters) ∈ range (projects h)) as Hin.
  { rewrite Hperm. by apply elem_of_map_to_list. }
  apply list_elem_of_split in Hin as (before & rest & Hsplit).
  rewrite Hsplit, queryProjects_app.
  destruct (queryProjects fuel timeNow lastState rateLimit before [] (gc h))
    as [[result1|p|] g1] eqn:Hb; [|done..].
  simpl. rewrite Hnone.
  destruct (handlerQueryChangesForProject fuel project timeNow rateLimit
              (queryStringsFromQueryFilter filters) g1)
    as [[[changes e]|p|] g2] eqn:Hpoll; [|done..].
  pose proof (handlerQueryChangesForProject_updated _ _ _ _ _ _ _ _ _ Hpoll) as Hup.
  destruct e as [e|].
  - assert (changes = []) as ->.
    { unfold handlerQueryChangesForProject in Hpoll.
      by apply queryLoop_error in Hpoll as [-> _]. }
    destruct (queryProjects fuel timeNow lastState rateLimit rest result1 g2)
      as [r3 g3] eqn:Hr.
    intros [= -> <-]. apply queryProjects_extends in Hr as (ext & -> & _).
    exists before, rest, result1, g1, [], (Some e), g2, ext. by repeat split.
  - destruct (queryProjects fuel timeNow lastState rateLimit rest (result1 ++ changes) g2)
      as [r3 g3] eqn:Hr.
    intros [= -> <-]. apply queryProjects_extends in Hr as (ext & -> & _).
    exists before, rest, result1, g1, changes, None, g2, ext.
    rewrite app_assoc. by repeat split.
Qed.

(** With no sync state at all, everything [queryAllChanges] returns was
    updated after [timeNow]. *)
Lemma queryAllChanges_never_synced fuel timeNow range rateLimit h result h' :
  queryAllChanges fuel timeNow range ∅ rateLimit h = (Returns result, h') →
  Forall (λ c, timeNow < Updated c) result.
Proof.
  unfold queryAllChanges.
  destruct (queryProjects fuel timeNow ∅ rateLimit (range (projects h)) [] (gc h))
    as [r g'] eqn:Hr.
  intros [= -> <-]. apply queryProjects_extends in Hr as (ext & -> & Hext).
  simpl. eapply Forall_impl; [exact Hext|]. intros c (p & _ & Hc).
  by rewrite lookup_empty in Hc.
Qed.

End FanOut.

(** The project of [sampleHandler] has no sync state: it is polled from
    [timeNow], here the watermark of the samples, and the fresh merge is all
    that comes back. *)
Lemma C5_unsynced_project_polled_from_now_witness :
  ∃ before rest result1 g1 changes e g2 result3,
    map_to_list (projects sampleHandler) = before ++ ("ci-tools", None) :: rest ∧
    queryProjects 2 sampleWatermark ∅ 50 before [] (gc sampleHandler)
      = (Returns result1, g1) ∧
    handlerQueryChangesForProject 2 "ci-tools" sampleWatermark 50
      (queryStringsFromQueryFilter None) g1 = (Returns (changes, e), g2) ∧
    Forall (λ c, sampleWatermark < Updated c) changes ∧
    [mergedFresh] = result1 ++ changes ++ result3.
Proof.
  refine (C5_unsynced_project_polled_from_now 2 sampleWatermark map_to_list ∅ 50
            sampleHandler "ci-tools" None [mergedFresh] _ _ _ _ _).
  - reflexivity.
  - reflexivity.
  - reflexivity.
  - vm_compute. reflexivity.
Defined.

(** ** A failed comment listing *)

Section CommentFailure.
Context {G : Type} `{!Gerrit G}.

(** A poll whose page requests all succeed returns no error. *)
Lemma queryLoop_no_page_error fuel opt lastUpdate rateLimit start pending g r g' :
  (∀ opt' g0, (QueryChanges opt' g0).1.2 = None) →
  queryLoop fuel opt lastUpdate rateLimit start pending g = (r, g') →
  ∀ result e, r = Returns (result, e) → e = None.
Proof.
  intros Hok Hl result [e|] ->; [|done].
  apply queryLoop_error in Hl as (_ & opt' & g0 & changes & resp & e0 & Hq & _).
  specialize (Hok opt' g0). by rewrite Hq in Hok.
Qed.

(** C10. Let [change] be a change with status NEW whose current revision
    [rev] is in its revision map, and let the listing of its comments
    fail with the error [e].  Then [injectPatchsetMessages] hands [e] back
    and leaves the change, hence its messages, as received; the
    classification goes on with those messages and returns: it reports
    the change when a native message on [rev] or the creation of [rev] is
    after [lastUpdate], and leaves it out otherwise.  And an error that a
    poll returns is the error of its last page request, so that a poll
    whose page requests succeed returns no error, whatever the comment
    listings answer. *)
Theorem C10_comment_failure_is_not_propagated
    lastUpdate change rev pending g out resp e g' :
  Status change = New →
  Revisions change !! CurrentRevision change = Some rev →
  ListChangeComments (ID change) g = (out, resp, Some e, g') →
  injectPatchsetMessages change g = (Returns (change, Some e), g') ∧
  (freshMessage lastUpdate rev (Messages change) ∨ lastUpdate < rev_Created rev →
     classify lastUpdate change pending g = (Returns (pending ++ [change]), g')) ∧
  (¬ (freshMessage lastUpdate rev (Messages change) ∨ lastUpdate < rev_Created rev) →
     classify lastUpdate change pending g = (Returns pending, g')) ∧
  (∀ fuel project rateLimit additionalFilters g0 result err g1,
     handlerQueryChangesForProject fuel project lastUpdate rateLimit
       additionalFilters g0 = (Returns (result, Some err), g1) →
     ∃ opt' g0' changes resp' e0,
       QueryChanges opt' g0' = (changes, resp', Some e0, g1) ∧
       err = responseBodyError e0 resp') ∧
  ((∀ opt' g0, (QueryChanges opt' g0).1.2 = None) →
   ∀ fuel project rateLimit additionalFilters g0 result err g1,
     handlerQueryChangesForProject fuel project lastUpdate rateLimit
       additionalFilters g0 = (Returns (result, err), g1) →
     err = None).
Proof.
  intros Hst Hrev Hfail.
  assert (injectPatchsetMessages change g = (Returns (change, Some e), g')) as Hinj.
  { unfold injectPatchsetMessages. by rewrite Hfail. }
  assert (classify lastUpdate change pending g =
          (if negb (newMessages lastUpdate rev (Messages change))
              && negb (After (rev_Created rev) lastUpdate)
           then (Returns pending, g') else (Returns (pending ++ [change]), g')))
    as Hc.
  { unfold classify. rewrite Hst. simpl. by rewrite Hrev, Hinj. }
  split; [done|]. split; [|split; [|split]].
  - intros Hfresh. rewrite Hc.
    assert (negb (newMessages lastUpdate rev (Messages change))
            && negb (After (rev_Created rev) lastUpdate) = false) as ->; [|done].
    apply andb_false_iff. destruct Hfresh as [Hf|Hf].
    + left. apply newMessages_true in Hf. by rewrite Hf.
    + right. apply After_true in Hf. by rewrite Hf.
  - intros Hstale. rewrite Hc.
    assert (negb (newMessages lastUpdate rev (Messages change))
            && negb (After (rev_Created rev) lastUpdate) = true) as ->; [|done].
    apply andb_true_iff. split; apply negb_true_iff.
    + destruct (newMessages lastUpdate rev (Messages change)) eqn:Hn; [|done].
      apply newMessages_true in Hn. destruct Hstale. by left.
    + destruct (After (rev_Created rev) lastUpdate) eqn:Ha; [|done].
      apply After_true in Ha. destruct Hstale. by right.
  - intros fuel project rateLimit additionalFilters g0 result err g1 Hl.
    by apply queryLoop_error in Hl as [_ ?].
  - intros Hok fuel project rateLimit additionalFilters g0 result err g1 Hl.
    by eapply queryLoop_no_page_error.
Qed.

End CommentFailure.

(** The comment listing of [uncommentedPages] fails; [newFresh], whose
    revision was created after the watermark, is reported all the same. *)
Example poll_uncommentedPages :
  handlerQueryChangesForProject 2 "ci-tools" sampleWatermark 50 [] uncommentedPages
  = (Returns ([newFresh], None), {| pages := []; commentsOf := failingComments |}).
Proof. reflexivity. Qed.

Lemma C10_comment_failure_is_not_propagated_witness :
  injectPatchsetMessages newFresh uncommentedPages
    = (Returns (newFresh, Some (ErrGerrit "comments unavailable")), uncommentedPages) ∧
  classify sampleWatermark newFresh [] uncommentedPages
    = (Returns [newFresh], uncommentedPages).
Proof.
  assert (Status newFresh = New) as Hst by reflexivity.
  assert (Revisions newFresh !! CurrentRevision newFresh
          = Some {| rev_Created := 1005; rev_Number := 1 |}) as Hrev by reflexivity.
  assert (ListChangeComments (ID newFresh) uncommentedPages
          = (None, None, Some (ErrGerrit "comments unavailable"), uncommentedPages))
    as Hfail by reflexivity.
  destruct (C10_comment_failure_is_not_propagated sampleWatermark newFresh
              {| rev_Created := 1005; rev_Number := 1 |} [] uncommentedPages
              None None (ErrGerrit "comments unavailable") uncommentedPages
              Hst Hrev Hfail) as (Hinj & Hin & _ & _ & _).
  split; [exact Hinj|]. apply Hin. right. unfold sampleWatermark. simpl. lia.
Defined.

(** ** The submitted timestamp of merged changes *)

Section SubmittedPresent.
Context {G : Type} `{!Gerrit G}.
Variable lastUpdate : Z.
Variable inv : G → Prop.
Hypothesis inv_QueryChanges :
  ∀ opt g reply g', inv g → QueryChanges opt g = (reply, g') → inv g'.
Hypothesis inv_ListChangeComments :
  ∀ i g reply g', inv g → ListChangeComments i g = (reply, g') → inv g'.
Hypothesis merged_submitted :
  ∀ opt g page resp g', inv g →
    QueryChanges opt g = (Some page, resp, None, g') →
    Forall (submittedPresent lastUpdate) page.

Lemma injectPatchsetMessages_submitted change g r g' :
  inv g → injectPatchsetMessages change g = (r, g') →
  r ≠ Panics NilSubmitted ∧ inv g'.
Proof using inv_ListChangeComments.
  intros Hinv. unfold injectPatchsetMessages.
  destruct (ListChangeComments (ID change) g) as [[[out resp] err] g1] eqn:Hl.
  pose proof (inv_ListChangeComments _ _ _ _ Hinv Hl) as Hinv1.
  destruct err as [e|]; [by intros [= <- <-]|].
  destruct out as [outer|]; [|by intros [= <- <-]].
  destruct (outer !! "/PATCHSET_LEVEL") as [comments|]; [|by intros [= <- <-]].
  destruct (appendComments comments (Messages change) false) as [[ms changed]|];
    by intros [= <- <-].
Qed.

Lemma classify_submitted change pending g r g' :
  inv g → submittedPresent lastUpdate change → lastUpdate < Updated change →
  classify lastUpdate change pending g = (r, g') →
  r ≠ Panics NilSubmitted ∧ inv g'.
Proof using inv_ListChangeComments.
  intros Hinv Hsub Hup. unfold classify.
  destruct (String.eqb_spec (Status change) Merged) as [Hm|Hm].
  { destruct (Hsub Hm Hup) as [t ->]. destruct (negb _); by intros [= <- <-]. }
  destruct (String.eqb (Status change) New); [|by intros [= <- <-]].
  destruct (Revisions change !! CurrentRevision change) as [rev|];
    [|by intros [= <- <-]].
  destruct (injectPatchsetMessages change g) as [r1 g1] eqn:Hi.
  destruct (injectPatchsetMessages_submitted _ _ _ _ Hinv Hi) as [Hr1 Hinv1].
  destruct r1 as [[change' e]|p|]; [| |by intros [= <- <-]].
  - destruct (_ && _); by intros [= <- <-].
  - intros [= <- <-]. split; [|done]. intros [= ->]. by apply Hr1.
Qed.

Lemma rangeChanges_submitted changes pending g r g' :
  inv g → Forall (submittedPresent lastUpdate) changes →
  rangeChanges lastUpdate changes pending g = (r, g') →
  r ≠ Panics NilSubmitted ∧ inv g'.
Proof using inv_ListChangeComments.
  intros Hinv Hsub. revert pending g Hinv.
  induction Hsub as [|change rest Hc _ IH]; intros pending g Hinv; simpl.
  { by intros [= <- <-]. }
  unfold parseStamp. destruct (After (Updated change) lastUpdate) eqn:Ha; simpl.
  2:{ by intros [= <- <-]. }
  apply After_true in Ha.
  destruct (classify lastUpdate change pending g) as [r1 g1] eqn:Hcl.
  destruct (classify_submitted _ _ _ _ _ Hinv Hc Ha Hcl) as [Hr1 Hinv1].
  destruct r1 as [pending1|p|]; [by apply IH| |by intros [= <- <-]].
  intros [= <- <-]. split; [|done]. intros [= ->]. by apply Hr1.
Qed.

(** With the submitted timestamps in place, no poll ends in the
    dereference of a missing submitted timestamp, whatever the comment
    listings hold. *)
Lemma queryLoop_submitted fuel opt rateLimit start pending g :
  inv g →
  (queryLoop fuel opt lastUpdate rateLimit start pending g).1 ≠ Panics NilSubmitted.
Proof using All.
  revert start pending g. induction fuel as [|fuel IH]; intros start pending g Hinv.
  { done. }
  cbn [queryLoop].
  destruct (QueryChanges (pageOptions opt rateLimit start) g)
    as [[[changes resp] err] g1] eqn:Hq.
  pose proof (inv_QueryChanges _ _ _ _ Hinv Hq) as Hinv1.
  destruct err as [e|]; [done|].
  destruct changes as [[|change page]|]; [done| |done].
  pose proof (merged_submitted _ _ _ _ _ Hinv Hq) as Hsub.
  destruct (rangeChanges lastUpdate (change :: page) pending g1) as [r g2] eqn:Hr.
  destruct (rangeChanges_submitted _ _ _ _ _ Hinv1 Hsub Hr) as [Hr1 Hinv2].
  destruct r as [[[] pending1]|p|]; [by apply IH|done| |done].
  simpl. intros [= ->]. by apply Hr1.
Qed.

End SubmittedPresent.

(** ** Panics and termination of a poll *)

Section Totality.
Context {G : Type} `{!Gerrit G}.
Variable lastUpdate : Z.
(** An invariant of the gateway and a bound on the non-empty pages it has
    left to serve. *)
Variable inv : G → Prop.
Variable backlog : G → nat.
Hypothesis inv_QueryChanges :
  ∀ opt g reply g', inv g → QueryChanges opt g = (reply, g') → inv g'.
Hypothesis inv_ListChangeComments :
  ∀ i g reply g', inv g → ListChangeComments i g = (reply, g') → inv g'.
Hypothesis merged_submitted :
  ∀ opt g page resp g', inv g →
    QueryChanges opt g = (Some page, resp, None, g') →
    Forall (submittedPresent lastUpdate) page.
Hypothesis comments_dated :
  ∀ i g out resp g', inv g →
    ListChangeComments i g = (out, resp, None, g') → commentsDated out.
Hypothesis backlog_QueryChanges :
  ∀ opt g page resp g', inv g →
    QueryChanges opt g = (Some page, resp, None, g') → page ≠ [] →
    (backlog g' < backlog g)%nat.
Hypothesis backlog_ListChangeComments :
  ∀ i g reply g', inv g → ListChangeComments i g = (reply, g') →
    (backlog g' ≤ backlog g)%nat.

Lemma injectPatchsetMessages_returns change g r g' :
  inv g → injectPatchsetMessages change g = (r, g') →
  (∃ change' e, r = Returns (change', e)) ∧ inv g' ∧ (backlog g' ≤ backlog g)%nat.
Proof using inv_ListChangeComments comments_dated backlog_ListChangeComments.
  intros Hinv. unfold injectPatchsetMessages.
  destruct (ListChangeComments (ID change) g) as [[[out resp] err] g1] eqn:Hl.
  pose proof (inv_ListChangeComments _ _ _ _ Hinv Hl) as Hinv1.
  pose proof (backlog_ListChangeComments _ _ _ _ Hinv Hl) as Hb.
  destruct err as [e|]; [intros [= <- <-]; by eauto|].
  destruct (comments_dated _ _ _ _ _ Hinv Hl) as (outer & -> & Hdated).
  destruct (outer !! "/PATCHSET_LEVEL") as [comments|] eqn:Hlevel;
    [|intros [= <- <-]; by eauto].
  destruct (appendComments_Some comments (Messages change) false (Hdated _ eq_refl))
    as (synthetic & -> & _).
  intros [= <- <-]. by eauto.
Qed.

Lemma classify_returns change pending g r g' :
  inv g → submittedPresent lastUpdate change → lastUpdate < Updated change →
  classify lastUpdate change pending g = (r, g') →
  (∃ pending', r = Returns pending') ∧ inv g' ∧ (backlog g' ≤ backlog g)%nat.
Proof using inv_ListChangeComments comments_dated backlog_ListChangeComments.
  intros Hinv Hsub Hup. unfold classify.
  destruct (String.eqb_spec (Status change) Merged) as [Hm|Hm].
  { destruct (Hsub Hm Hup) as [t ->]. destruct (negb _); intros [= <- <-]; by eauto. }
  destruct (String.eqb (Status change) New); [|intros [= <- <-]; by eauto].
  destruct (Revisions change !! CurrentRevision change) as [rev|];
    [|intros [= <- <-]; by eauto].
  destruct (injectPatchsetMessages change g) as [r1 g1] eqn:Hi.
  destruct (injectPatchsetMessages_returns _ _ _ _ Hinv Hi)
    as ((change' & e & ->) & Hinv1 & Hb).
  destruct (_ && _); intros [= <- <-]; by eauto.
Qed.

Lemma rangeChanges_returns changes pending g r g' :
  inv g → Forall (submittedPresent lastUpdate) changes →
  rangeChanges lastUpdate changes pending g = (r, g') →
  (∃ e pending', r = Returns (e, pending')) ∧ inv g' ∧ (backlog g' ≤ backlog g)%nat.
Proof using inv_ListChangeComments comments_dated backlog_ListChangeComments.
  intros Hinv Hsub. revert pending g Hinv.
  induction Hsub as [|change rest Hc _ IH]; intros pending g Hinv; simpl.
  { intros [= <- <-]. by eauto. }
  unfold parseStamp. destruct (After (Updated change) lastUpdate) eqn:Ha; simpl.
  2:{ intros [= <- <-]. by eauto. }
  apply After_true in Ha.
  destruct (classify lastUpdate change pending g) as [r1 g1] eqn:Hcl.
  destruct (classify_returns _ _ _ _ _ Hinv Hc Ha Hcl) as ((pending1 & ->) & Hinv1 & Hb).
  intros Hr. destruct (IH _ _ Hinv1 Hr) as (Hret & Hinv2 & Hb2).
  split; [done|]. split; [done|]. lia.
Qed.

(** With these preconditions the paging loop never panics, and it returns
    as soon as its fuel exceeds the backlog of the gateway. *)
Lemma queryLoop_returns fuel opt rateLimit start pending g :
  inv g →
  (∀ p, (queryLoop fuel opt lastUpdate rateLimit start pending g).1 ≠ Panics p) ∧
  ((backlog g < fuel)%nat →
   ∃ result e g',
     queryLoop fuel opt lastUpdate rateLimit start pending g = (Returns (result, e), g')).
Proof using All.
  revert start pending g. induction fuel as [|fuel IH]; intros start pending g Hinv.
  { split; [done|lia]. }
  cbn [queryLoop].
  destruct (QueryChanges (pageOptions opt rateLimit start) g)
    as [[[changes resp] err] g1] eqn:Hq.
  pose proof (inv_QueryChanges _ _ _ _ Hinv Hq) as Hinv1.
  destruct err as [e|]; [split; [done|by eauto]|].
  destruct changes as [[|change page]|]; [split; [done|by eauto]| |split; [done|by eauto]].
  pose proof (merged_submitted _ _ _ _ _ Hinv Hq) as Hsub.
  assert (backlog g1 < backlog g)%nat as Hless.
  { by eapply backlog_QueryChanges. }
  destruct (rangeChanges lastUpdate (change :: page) pending g1) as [r g2] eqn:Hr.
  destruct (rangeChanges_returns _ _ _ _ _ Hinv1 Hsub Hr)
    as ((e & pending1 & ->) & Hinv2 & Hb).
  destruct e; [|split; [done|by eauto]].
  destruct (IH (wrap_int (start + Z.of_nat (length (change :: page)))) pending1 g2 Hinv2)
    as [Hnp Hret].
  split; [done|]. intros Hfuel. apply Hret. lia.
Qed.


End Totality.

(** ** The scripted gateway meets the preconditions of a total poll *)

Section Scripted.
Variable lastUpdate : Z.
Implicit Types s : script.

Lemma scripted_inv_QueryChanges opt s reply s' :
  scriptDated lastUpdate s → QueryChanges opt s = (reply, s') →
  scriptDated lastUpdate s'.
Proof.
  intros [Hp Hc]. simpl. destruct (pages s) as [|r rest] eqn:Hs.
  - intros [= <- <-]. split; [by rewrite Hs|done].
  - intros [= <- <-]. split; [|done]. simpl. by apply Forall_cons in Hp as [_ ?].
Qed.

Lemma scripted_inv_ListChangeComments i s reply s' :
  scriptDated lastUpdate s → ListChangeComments i s = (reply, s') →
  scriptDated lastUpdate s'.
Proof. intros Hd. simpl. by intros [= <- <-]. Qed.

Lemma scripted_merged_submitted opt s page resp s' :
  scriptDated lastUpdate s →
  QueryChanges opt s = (Some page, resp, None, s') →
  Forall (submittedPresent lastUpdate) page.
Proof.
  intros [Hp Hc]. simpl. destruct (pages s) as [|r rest] eqn:Hs.
  - intros [= <- <- <-]. constructor.
  - intros [= -> <-]. apply Forall_cons in Hp as [Hr _]. by apply Hr.
Qed.

Lemma scripted_comments_dated i s out resp s' :
  scriptDated lastUpdate s →
  ListChangeComments i s = (out, resp, None, s') → commentsDated out.
Proof.
  intros [Hp Hc]. simpl. intros [= Hi <-]. specialize (Hc i).
  rewrite Hi in Hc. by apply Hc.
Qed.

Lemma scripted_backlog_QueryChanges opt s page resp s' :
  scriptDated lastUpdate s →
  QueryChanges opt s = (Some page, resp, None, s') → page ≠ [] →
  (length (pages s') < length (pages s))%nat.
Proof.
  intros _. simpl. destruct (pages s) as [|r rest] eqn:Hs.
  - by intros [= <- <- <-].
  - intros [= -> <-] _. simpl. lia.
Qed.

Lemma scripted_backlog_ListChangeComments i s reply s' :
  scriptDated lastUpdate s → ListChangeComments i s = (reply, s') →
  (length (pages s') ≤ length (pages s))%nat.
Proof. intros _. simpl. by intros [= <- <-]. Qed.

End Scripted.

Lemma commentedPages_dated : scriptDated sampleWatermark commentedPages.
Proof.
  split.
  - apply Forall_cons. split; [|constructor].
    intros page [= <-]. repeat constructor; intros Hst; discriminate Hst.
  - intros changeID _. simpl. unfold sampleComments, noComments.
    destruct (String.eqb changeID "new-commented"); simpl.
    + eexists. split; [done|]. intros comments.
      rewrite lookup_singleton_eq. intros [= <-]. repeat constructor; by eexists.
    + eexists. split; [done|]. intros comments. by rewrite lookup_empty.
Qed.



(** * Further properties *)

(** ** What a poll returns *)

(** Every change that a poll returns is actionable for its watermark: it
    was updated after [lastUpdate], its status is MERGED or NEW (never
    another one, such as ABANDONED), a MERGED change was submitted after
    [lastUpdate], and a NEW change has its current revision in its revision
    map, with a message on it or its creation after [lastUpdate]. *)
Theorem poll_returns_actionable_changes {G} `{!Gerrit G}
    fuel project lastUpdate rateLimit additionalFilters (g : G) result e g' :
  handlerQueryChangesForProject fuel project lastUpdate rateLimit additionalFilters g
    = (Returns (result, e), g') →
  Forall (actionable lastUpdate) result ∧
  Forall (λ c, lastUpdate < Updated c ∧ (Status c = Merged ∨ Status c = New)) result.
Proof.
  unfold handlerQueryChangesForProject. intros Hl.
  assert (Forall (actionable lastUpdate) result) as Hact.
  { destruct e as [e|].
    - by apply queryLoop_error in Hl as [-> _].
    - by apply queryLoop_actionable with (result := result) in Hl as (ext & -> & Hext). }
  split; [done|]. eapply Forall_impl; [exact Hact|].
  intros c [Hup [[? _]|[? _]]]; auto.
Qed.

Lemma poll_returns_actionable_changes_witness :
  Forall (actionable sampleWatermark) [mergedFresh; newFresh] ∧
  Forall (λ c, sampleWatermark < Updated c ∧ (Status c = Merged ∨ Status c = New))
    [mergedFresh; newFresh].
Proof.
  refine (poll_returns_actionable_changes 5 "ci-tools" sampleWatermark 2 []
            threePages [mergedFresh; newFresh] None _ _).
  reflexivity.
Defined.

(** A poll that returns an error returns no change, whatever it had
    accumulated from the pages before, and the error is that of its last
    page request, with the body of the response when there is one. *)
Theorem poll_error_discards_changes {G} `{!Gerrit G}
    fuel project lastUpdate rateLimit additionalFilters (g : G) result err g' :
  handlerQueryChangesForProject fuel project lastUpdate rateLimit additionalFilters g
    = (Returns (result, Some err), g') →
  result = [] ∧
  ∃ opt g0 changes resp e0,
    QueryChanges opt g0 = (changes, resp, Some e0, g') ∧
    err = responseBodyError e0 resp.
Proof. unfold handlerQueryChangesForProject. apply queryLoop_error. Qed.

(** The fresh merge of the first page of [failingPages] is lost with the
    failure of the second request. *)
Lemma poll_error_discards_changes_witness :
  [] = @nil ChangeInfo ∧
  ∃ opt g0 changes resp e0,
    QueryChanges opt g0
      = (changes, resp, Some e0, {| pages := []; commentsOf := noComments |}) ∧
    ErrResponseBody (ErrGerrit "429 Too Many Requests") "quota exceeded"
      = responseBodyError e0 resp.
Proof.
  refine (poll_error_discards_changes 5 "ci-tools" sampleWatermark 1 []
            failingPages [] _ _ _).
  reflexivity.
Defined.

(** ** The requests of a poll *)

Section PollRequests.
Context {G : Type} `{!Gerrit G}.
Implicit Types g : recorded G.

Lemma rangeChanges_calls_comments lastUpdate changes pending g :
  ∃ ids, calls (rangeChanges lastUpdate changes pending g).2
         = calls g ++ (CallListChangeComments <$> ids) ∧
         ids `sublist_of` (ID <$> changes).
Proof.
  revert pending g. induction changes as [|change rest IH]; intros pending g; simpl.
  { exists []. by rewrite app_nil_r. }
  destruct (negb _).
  { exists []. rewrite app_nil_r. split; [done|]. apply sublist_nil_l. }
  destruct (classify lastUpdate change pending g) as [r1 g1] eqn:Hc.
  apply classify_calls in Hc.
  assert (∃ ids1, calls g1 = calls g ++ (CallListChangeComments <$> ids1) ∧
                  ids1 `sublist_of` [ID change]) as (ids1 & Hg1 & Hs1).
  { destruct (asksComments change).
    - by exists [ID change].
    - exists []. split; [done|]. apply sublist_nil_l. }
  destruct r1 as [pending1|p|]; simpl.
  - destruct (IH pending1 g1) as (ids & -> & Hs). exists (ids1 ++ ids).
    rewrite Hg1, fmap_app, app_assoc. split; [done|].
    by apply (sublist_app ids1 [ID change] ids (ID <$> rest)).
  - exists ids1. split; [done|]. etrans; [exact Hs1|]. apply sublist_skip, sublist_nil_l.
  - exists ids1. split; [done|]. etrans; [exact Hs1|]. apply sublist_skip, sublist_nil_l.
Qed.

Lemma cookieCalls_comments (ids : list string) :
  cookieCalls (CallListChangeComments <$> ids) = [].
Proof. induction ids as [|i ids IH]; [done|]. simpl. exact IH. Qed.

Lemma queryLoop_calls fuel opt lastUpdate rateLimit start pending g :
  ∃ new, calls (queryLoop fuel opt lastUpdate rateLimit start pending g).2
         = calls g ++ new ∧
    cookieCalls new = [] ∧
    Forall (λ o, ∃ st, o = pageOptions opt rateLimit st) (pageRequests new) ∧
    (length (pageRequests new) ≤ fuel)%nat ∧
    (fuel ≠ 0%nat → head (pageRequests new) = Some (pageOptions opt rateLimit start)).
Proof.
  revert start pending g. induction fuel as [|fuel IH]; intros start pending g.
  { exists []. simpl. rewrite app_nil_r. by repeat split. }
  cbn [queryLoop]. unfold QueryChanges at 1. cbn [recorder].
  destruct (QueryChanges (pageOptions opt rateLimit start) (inner g))
    as [[[changes resp] err] g0].
  set (g1 := {| inner := g0;
                calls := calls g ++ [CallQueryChanges (pageOptions opt rateLimit start)] |}).
  assert (∀ (gfin : recorded G) more,
            calls gfin = calls g1 ++ more →
            cookieCalls more = [] →
            Forall (λ o, ∃ st, o = pageOptions opt rateLimit st) (pageRequests more) →
            (length (pageRequests more) ≤ fuel)%nat →
            let new := CallQueryChanges (pageOptions opt rateLimit start) :: more in
            calls gfin = calls g ++ new ∧
            cookieCalls new = [] ∧
            Forall (λ o, ∃ st, o = pageOptions opt rateLimit st) (pageRequests new) ∧
            (length (pageRequests new) ≤ S fuel)%nat ∧
            (S fuel ≠ 0%nat →
             head (pageRequests new) = Some (pageOptions opt rateLimit start))) as Hnew.
  { intros gfin more -> Hc Hp Hl. simpl. rewrite <- app_assoc. split; [done|].
    split; [done|]. split; [constructor; [by eexists|done]|]. split; [lia|done]. }
  assert (∀ gfin : recorded G, calls gfin = calls g1 →
            ∃ new, calls gfin = calls g ++ new ∧
              cookieCalls new = [] ∧
              Forall (λ o, ∃ st, o = pageOptions opt rateLimit st) (pageRequests new) ∧
              (length (pageRequests new) ≤ S fuel)%nat ∧
              (S fuel ≠ 0%nat →
               head (pageRequests new) = Some (pageOptions opt rateLimit start))) as Hone.
  { intros gfin Hg. exists [CallQueryChanges (pageOptions opt rateLimit start)].
    apply (Hnew gfin []); [by rewrite app_nil_r|done|constructor|simpl; lia]. }
  destruct err as [e|]; [by apply Hone|].
  destruct changes as [[|change page]|]; [by apply Hone| |by apply Hone].
  destruct (rangeChanges_calls_comments lastUpdate (change :: page) pending g1)
    as (ids & Hids & _).
  destruct (rangeChanges lastUpdate (change :: page) pending g1) as [r g2].
  simpl in Hids.
  assert (∀ gfin : recorded G, calls gfin = calls g2 →
            ∃ new, calls gfin = calls g ++ new ∧
              cookieCalls new = [] ∧
              Forall (λ o, ∃ st, o = pageOptions opt rateLimit st) (pageRequests new) ∧
              (length (pageRequests new) ≤ S fuel)%nat ∧
              (S fuel ≠ 0%nat →
               head (pageRequests new) = Some (pageOptions opt rateLimit start))) as Hstop.
  { intros gfin Hg.
    exists (CallQueryChanges (pageOptions opt rateLimit start)
              :: (CallListChangeComments <$> ids)).
    apply (Hnew gfin (CallListChangeComments <$> ids)).
    - by rewrite Hg.
    - apply cookieCalls_comments.
    - rewrite pageRequests_comments. constructor.
    - rewrite pageRequests_comments. simpl. lia. }
  destruct r as [[[] pending1]|p|]; [|by apply Hstop..].
  destruct (IH (wrap_int (start + Z.of_nat (length (change :: page)))) pending1 g2)
    as (more & Hmore & Hc & Hp & Hl & _).
  exists (CallQueryChanges (pageOptions opt rateLimit start)
            :: (CallListChangeComments <$> ids) ++ more).
  apply (Hnew _ ((CallListChangeComments <$> ids) ++ more)).
  - by rewrite Hmore, Hids, app_assoc.
  - pose proof (cookieCalls_comments ids) as Hk. unfold cookieCalls in *.
    by rewrite omap_app, Hk, Hc.
  - by rewrite pageRequests_app, pageRequests_comments.
  - by rewrite pageRequests_app, pageRequests_comments.
Qed.

(** Whatever a poll ends with, the gateway has received from it, after the
    calls it had received before: no credential; at most [fuel] page
    requests, each for the query of the project (the filters and
    [project:<name>], joined by [+]), with the four additional fields and
    the rate limit as page size, the first of them at offset 0. *)
Theorem poll_requests fuel project lastUpdate rateLimit additionalFilters g :
  ∃ new,
    calls (handlerQueryChangesForProject fuel project lastUpdate rateLimit
             additionalFilters g).2 = calls g ++ new ∧
    cookieCalls new = [] ∧
    Forall (λ o, Query o = [String.concat "+" (additionalFilters ++ ["project:" +:+ project])] ∧
                 AdditionalFields o
                 = ["CURRENT_REVISION"; "CURRENT_COMMIT"; "CURRENT_FILES"; "MESSAGES"] ∧
                 Limit o = rateLimit)
      (pageRequests new) ∧
    (length (pageRequests new) ≤ fuel)%nat ∧
    (fuel ≠ 0%nat → ∃ o, head (pageRequests new) = Some o ∧ Start o = 0).
Proof.
  unfold handlerQueryChangesForProject.
  destruct (queryLoop_calls fuel (projectQuery project additionalFilters) lastUpdate
              rateLimit 0 [] g) as (new & Hnew & Hc & Hp & Hl & Hh).
  exists new. split; [done|]. split; [done|]. split; [|split; [done|]].
  - eapply Forall_impl; [exact Hp|]. by intros o [st ->].
  - intros Hf. eexists. split; [by apply Hh|done].
Qed.

End PollRequests.

Lemma poll_requests_witness :
  ∃ new,
    calls (handlerQueryChangesForProject 5 "ci-tools" sampleWatermark 2 []
             threePages).2 = calls threePages ++ new ∧
    cookieCalls new = [] ∧
    Forall (λ o, Query o = [String.concat "+" ([] ++ ["project:" +:+ "ci-tools"])] ∧
                 AdditionalFields o
                 = ["CURRENT_REVISION"; "CURRENT_COMMIT"; "CURRENT_FILES"; "MESSAGES"] ∧
                 Limit o = 2)
      (pageRequests new) ∧
    (length (pageRequests new) ≤ 5)%nat ∧
    (5%nat ≠ 0%nat → ∃ o, head (pageRequests new) = Some o ∧ Start o = 0).
Proof. exact (poll_requests 5 "ci-tools" sampleWatermark 2 [] threePages). Defined.

(** ** Polls of a scripted gateway *)

Section PollOrder.
Context {G : Type} `{!Gerrit G}.

Lemma classify_ids lastUpdate change pending (g : G) pending' g' :
  classify lastUpdate change pending g = (Returns pending', g') →
  ∃ ext, pending' = pending ++ ext ∧ (ID <$> ext) `sublist_of` [ID change].
Proof.
  unfold classify.
  assert (∃ ext, pending = pending ++ ext ∧ (ID <$> ext) `sublist_of` [ID change])
    as Hnone.
  { exists []. rewrite app_nil_r. split; [done|]. apply sublist_nil_l. }
  destruct (String.eqb (Status change) Merged).
  { destruct (Submitted change) as [t|]; [|done].
    destruct (negb _); intros [= <- <-]; [done|]. by exists [change]. }
  destruct (String.eqb (Status change) New); [|by intros [= <- <-]].
  destruct (Revisions change !! CurrentRevision change) as [rev|];
    [|by intros [= <- <-]].
  destruct (injectPatchsetMessages change g) as [r1 g1] eqn:Hi.
  apply injectPatchsetMessages_change in Hi as [_ Hch].
  destruct r1 as [[change' e]|p|]; [|done..].
  specialize (Hch _ _ eq_refl).
  destruct (_ && _); intros [= <- <-]; [done|].
  exists [change']. split; [done|]. by rewrite Hch.
Qed.

Lemma rangeChanges_ids lastUpdate changes pending (g : G) e pending' g' :
  rangeChanges lastUpdate changes pending g = (Returns (e, pending'), g') →
  ∃ ext, pending' = pending ++ ext ∧ (ID <$> ext) `sublist_of` (ID <$> changes).
Proof.
  revert pending g. induction changes as [|change rest IH]; intros pending g; simpl.
  { intros [= <- <- <-]. exists []. by rewrite app_nil_r. }
  destruct (negb _).
  { intros [= <- <- <-]. exists []. rewrite app_nil_r. split; [done|].
    apply sublist_nil_l. }
  destruct (classify lastUpdate change pending g) as [[pending1|p|] g1] eqn:Hc; [|done..].
  apply classify_ids in Hc as (ext1 & -> & Hs1).
  intros Hr. apply IH in Hr as (ext2 & -> & Hs2).
  exists (ext1 ++ ext2). split; [by rewrite app_assoc|].
  rewrite fmap_app. by apply (sublist_app _ [ID change] _ (ID <$> rest)).
Qed.

End PollOrder.

(** Classifying changes leaves a scripted gateway as it is, and depends on
    its table of comments only. *)
Lemma injectPatchsetMessages_scripted change (s : script) :
  injectPatchsetMessages change s
  = ((injectPatchsetMessages change {| pages := []; commentsOf := commentsOf s |}).1, s).
Proof.
  unfold injectPatchsetMessages. cbn [ListChangeComments scripted commentsOf].
  destruct (commentsOf s (ID change)) as [[out resp] err].
  destruct err; [done|]. destruct out as [outer|]; [|done].
  destruct (outer !! "/PATCHSET_LEVEL") as [comments|]; [|done].
  by destruct (appendComments comments (Messages change) false) as [[ms ch]|].
Qed.

Lemma classify_scripted lastUpdate change pending (s : script) :
  classify lastUpdate change pending s
  = ((classify lastUpdate change pending
        {| pages := []; commentsOf := commentsOf s |}).1, s).
Proof.
  unfold classify. destruct (String.eqb (Status change) Merged).
  { destruct (Submitted change); [|done]. by destruct (negb _). }
  destruct (String.eqb (Status change) New); [|done].
  destruct (Revisions change !! CurrentRevision change); [|done].
  rewrite (injectPatchsetMessages_scripted change s).
  destruct (injectPatchsetMessages change {| pages := []; commentsOf := commentsOf s |})
    as [[[change' e]|p|] s0]; [|done..].
  simpl. by destruct (_ && _).
Qed.

Lemma rangeChanges_scripted lastUpdate changes pending (s : script) :
  rangeChanges lastUpdate changes pending s
  = ((rangeChanges lastUpdate changes pending
        {| pages := []; commentsOf := commentsOf s |}).1, s).
Proof.
  revert pending. induction changes as [|change rest IH]; intros pending; simpl; [done|].
  destruct (negb _); [done|].
  rewrite (classify_scripted lastUpdate change pending s).
  pose proof (classify_scripted lastUpdate change pending
                {| pages := []; commentsOf := commentsOf s |}) as Hs0.
  destruct (classify lastUpdate change pending
              {| pages := []; commentsOf := commentsOf s |}) as [[pending1|p|] s0];
    [|done..].
  inversion Hs0; subst s0. simpl. apply IH.
Qed.

Lemma queryLoop_scripted_ids fuel opt lastUpdate rateLimit start pending
    (s : script) result e s' :
  queryLoop fuel opt lastUpdate rateLimit start pending s = (Returns (result, e), s') →
  (ID <$> result) `sublist_of` (ID <$> pending) ++ (ID <$> servedChanges s).
Proof.
  revert start pending s. induction fuel as [|fuel IH]; intros start pending s; [done|].
  cbn [queryLoop]. unfold QueryChanges at 1, servedChanges. cbn [scripted].
  destruct (pages s) as [|[[changes resp] err] rest] eqn:Hs.
  { intros [= <- <- <-]. simpl. by rewrite app_nil_r. }
  destruct err as [er|].
  { intros [= <- <- <-]. apply sublist_nil_l. }
  destruct changes as [[|change page]|].
  1,3: intros [= <- <- <-]; simpl; by apply sublist_inserts_r.
  cbn [omap list_omap fst mjoin list_join].
  set (s1 := {| pages := rest; commentsOf := commentsOf s |}).
  destruct (rangeChanges lastUpdate (change :: page) pending s1)
    as [[[ending pending1]|p|] s2] eqn:Hr; [|done..].
  assert (s2 = s1) as ->.
  { rewrite rangeChanges_scripted in Hr. by inversion Hr. }
  apply rangeChanges_ids in Hr as (ext & -> & Hext).
  assert ((ID <$> pending ++ ext) ++ (ID <$> mjoin (omap (λ reply, reply.1.1) rest))
          `sublist_of`
          (ID <$> pending) ++
          (ID <$> (change :: page) ++ mjoin (omap (λ reply, reply.1.1) rest))) as Hsub.
  { rewrite !fmap_app, <- !app_assoc. apply sublist_app; [done|].
    by apply sublist_app. }
  destruct ending.
  - intros Hl. apply IH in Hl. etrans; [exact Hl|]. exact Hsub.
  - intros [= <- <- <-]. etrans; [|exact Hsub]. by apply sublist_inserts_r.
Qed.

(** The changes that a poll of a scripted gateway returns are among those
    of the pages of the script, in the order of the script: the sequence of
    their identifiers is a subsequence of that of the changes served. *)
Theorem poll_keeps_served_order
    fuel project lastUpdate rateLimit additionalFilters (s : script) result e s' :
  handlerQueryChangesForProject fuel project lastUpdate rateLimit additionalFilters s
    = (Returns (result, e), s') →
  (ID <$> result) `sublist_of` (ID <$> servedChanges s).
Proof. unfold handlerQueryChangesForProject. apply queryLoop_scripted_ids. Qed.

Lemma poll_keeps_served_order_witness :
  (ID <$> [mergedFresh]) `sublist_of` (ID <$> servedChanges mergedPages).
Proof.
  refine (poll_keeps_served_order 1 "ci-tools" sampleWatermark 50 [] mergedPages
            [mergedFresh] None _ _).
  reflexivity.
Defined.

Lemma queryLoop_scripted_pages fuel opt lastUpdate rateLimit start pending ps comments :
  Forall (λ page, page ≠ []) ps →
  (length ps < fuel)%nat →
  (queryLoop fuel opt lastUpdate rateLimit start pending
     {| pages := okPage <$> ps; commentsOf := comments |}).1
  = pollOutcome (rangeChanges lastUpdate (mjoin ps) pending
                   {| pages := []; commentsOf := comments |}).1.
Proof.
  intros Hne. revert fuel start pending.
  induction Hne as [|page ps Hpage _ IH]; intros fuel start pending Hfuel.
  { destruct fuel as [|fuel]; [simpl in Hfuel; lia|]. done. }
  destruct fuel as [|fuel]; [simpl in Hfuel; lia|].
  cbn [queryLoop]. unfold QueryChanges at 1. cbn [scripted pages fmap list_fmap okPage].
  destruct page as [|change page]; [done|].
  cbn [mjoin list_join]. rewrite rangeChanges_app.
  rewrite (rangeChanges_scripted lastUpdate (change :: page) pending
             {| pages := okPage <$> ps; commentsOf := comments |}).
  cbn [commentsOf].
  rewrite (rangeChanges_scripted lastUpdate (change :: page) pending
             {| pages := []; commentsOf := comments |}) at 2.
  cbn [commentsOf].
  destruct (rangeChanges lastUpdate (change :: page) pending
              {| pages := []; commentsOf := comments |}) as [[[[] pending1]|p|] s0];
    [|done..].
  cbn [fst]. apply IH. simpl in Hfuel. lia.
Qed.

(** Page boundaries do not matter.  For a gateway that serves the non-empty
    pages [ps] and then an empty page, a poll with fuel for one request
    more than there are pages ends as the classification of the changes of
    all the pages in one sequence ends: with the same changes, or with the
    same panic. *)
Theorem poll_ignores_page_boundaries
    fuel project lastUpdate rateLimit additionalFilters ps comments :
  Forall (λ page, page ≠ []) ps →
  (length ps < fuel)%nat →
  (handlerQueryChangesForProject fuel project lastUpdate rateLimit additionalFilters
     {| pages := okPage <$> ps; commentsOf := comments |}).1
  = pollOutcome (rangeChanges lastUpdate (mjoin ps) []
                   {| pages := []; commentsOf := comments |}).1.
Proof. unfold handlerQueryChangesForProject. apply queryLoop_scripted_pages. Qed.

Lemma poll_ignores_page_boundaries_witness :
  (handlerQueryChangesForProject 3 "ci-tools" sampleWatermark 2 []
     {| pages := okPage <$> [[mergedFresh; newCommented]; [mergedStale; oldChange]];
        commentsOf := sampleComments |}).1
  = pollOutcome (rangeChanges sampleWatermark
                   (mjoin [[mergedFresh; newCommented]; [mergedStale; oldChange]]) []
                   {| pages := []; commentsOf := sampleComments |}).1.
Proof.
  apply poll_ignores_page_boundaries.
  - repeat constructor; discriminate.
  - simpl. lia.
Defined.

(** ** The fan-out over the projects of a handler, continued *)

Section FanOutAll.
Context {G : Type} `{!Gerrit G}.
Implicit Types order : list (string * option GerritQueryFilter).

Lemma queryProjects_actionable
    fuel timeNow lastState rateLimit order result (g : G) result' g' :
  queryProjects fuel timeNow lastState rateLimit order result g = (Returns result', g') →
  ∃ ext, result' = result ++ ext ∧
    Forall (λ c, ∃ project, project ∈ order.*1 ∧
                 actionable (default timeNow (lastState !! project)) c) ext.
Proof.
  revert result g. induction order as [|[project filters] order IH];
    intros result g; simpl.
  { intros [= <- <-]. exists []. by rewrite app_nil_r. }
  destruct (handlerQueryChangesForProject _ _ _ _ _ g)
    as [[[changes e]|p|] g1] eqn:Hp; [|done..].
  assert (Forall (actionable (default timeNow (lastState !! project))) changes) as Hact.
  { unfold handlerQueryChangesForProject in Hp. destruct e as [e|].
    - by apply queryLoop_error in Hp as [-> _].
    - apply queryLoop_actionable with (result := changes) in Hp as (ext & -> & Hext);
        [|done].
      by destruct (lastState !! project). }
  assert (∀ ext, Forall (λ c, ∃ p, p ∈ order.*1 ∧
                   actionable (default timeNow (lastState !! p)) c) ext →
                 Forall (λ c, ∃ p, p ∈ project :: order.*1 ∧
                   actionable (default timeNow (lastState !! p)) c) ext) as Hweak.
  { intros ext Hf. eapply Forall_impl; [exact Hf|]. intros c (p & ? & ?). exists p.
    split; [by right|done]. }
  destruct e as [e|].
  - intros Hr. destruct (IH _ _ Hr) as (ext & -> & Hext). exists ext. auto.
  - intros Hr. destruct (IH _ _ Hr) as (ext & -> & Hext). exists (changes ++ ext).
    split; [by rewrite app_assoc|]. apply Forall_app. split; [|auto].
    eapply Forall_impl; [exact Hact|]. intros c Hc. exists project.
    split; [by left|done].
Qed.

(** Every change that [queryAllChanges] returns is actionable for the
    watermark of a project of the handler: the time of the sync state for
    that project, or [timeNow] when there is none.  The handler keeps its
    name and its projects. *)
Theorem queryAllChanges_returns_actionable_changes
    fuel timeNow range lastState rateLimit (h : gerritInstanceHandler G) result h' :
  range (projects h) ≡ₚ map_to_list (projects h) →
  queryAllChanges fuel timeNow range lastState rateLimit h = (Returns result, h') →
  Forall (λ c, ∃ project, is_Some (projects h !! project) ∧
               actionable (default timeNow (lastState !! project)) c) result ∧
  instance h' = instance h ∧ projects h' = projects h.
Proof.
  intros Hperm. unfold queryAllChanges.
  destruct (queryProjects fuel timeNow lastState rateLimit (range (projects h)) [] (gc h))
    as [r g'] eqn:Hr.
  intros [= -> <-]. split; [|done].
  apply queryProjects_actionable in Hr as (ext & -> & Hext). simpl.
  eapply Forall_impl; [exact Hext|]. intros c (project & Hin & Hact).
  exists project. split; [|done].
  rewrite Hperm in Hin. apply list_elem_of_fmap in Hin as ([p f] & -> & Hin).
  apply elem_of_map_to_list in Hin. by eexists.
Qed.

(** Each project of the handler is polled with its own watermark, and the
    polls of the other projects go on whatever this one returns: the result
    of [queryAllChanges] is what the projects visited before gave, then the
    changes of this poll (none when it returned an error), then what the
    projects visited after it gave, polled from the gateway as this poll
    left it. *)
Theorem queryAllChanges_polls_each_project
    fuel timeNow range lastState rateLimit (h : gerritInstanceHandler G)
    project filters result h' :
  range (projects h) ≡ₚ map_to_list (projects h) →
  projects h !! project = Some filters →
  queryAllChanges fuel timeNow range lastState rateLimit h = (Returns result, h') →
  ∃ before rest result1 g1 changes e g2 result3,
    range (projects h) = before ++ (project, filters) :: rest ∧
    queryProjects fuel timeNow lastState rateLimit before [] (gc h)
      = (Returns result1, g1) ∧
    handlerQueryChangesForProject fuel project
      (default timeNow (lastState !! project)) rateLimit
      (queryStringsFromQueryFilter filters) g1 = (Returns (changes, e), g2) ∧
    (is_Some e → changes = []) ∧
    queryProjects fuel timeNow lastState rateLimit rest (result1 ++ changes) g2
      = (Returns (result1 ++ changes ++ result3), gc h') ∧
    result = result1 ++ changes ++ result3.
Proof.
  intros Hperm Hp. unfold queryAllChanges.
  assert ((project, filters) ∈ range (projects h)) as Hin.
  { rewrite Hperm. by apply elem_of_map_to_list. }
  apply list_elem_of_split in Hin as (before & rest & Hsplit).
  rewrite Hsplit, queryProjects_app.
  destruct (queryProjects fuel timeNow lastState rateLimit before [] (gc h))
    as [[result1|p|] g1] eqn:Hb; [|done..].
  simpl.
  assert (match lastState !! project with Some t => t | None => timeNow end
          = default timeNow (lastState !! project)) as -> by by destruct (lastState !! _).
  destruct (handlerQueryChangesForProject fuel project
              (default timeNow (lastState !! project)) rateLimit
              (queryStringsFromQueryFilter filters) g1)
    as [[[changes e]|p|] g2] eqn:Hpoll; [|done..].
  assert (is_Some e → changes = []) as Hnil.
  { intros [e0 ->]. unfold handlerQueryChangesForProject in Hpoll.
    by apply queryLoop_error in Hpoll as [-> _]. }
  destruct e as [e0|].
  - rewrite (Hnil (ltac:(by eexists))) in *.
    destruct (queryProjects fuel timeNow lastState rateLimit rest result1 g2)
      as [r3 g3] eqn:Hr.
    intros [= -> <-]. pose proof Hr as Hr'.
    apply queryProjects_extends in Hr' as (ext & -> & _).
    exists before, rest, result1, g1, [], (Some e0), g2, ext.
    rewrite app_nil_r. simpl. by repeat split.
  - destruct (queryProjects fuel timeNow lastState rateLimit rest (result1 ++ changes) g2)
      as [r3 g3] eqn:Hr.
    intros [= -> <-]. pose proof Hr as Hr'.
    apply queryProjects_extends in Hr' as (ext & -> & _).
    exists before, rest, result1, g1, changes, None, g2, ext.
    rewrite <- !app_assoc in *. by repeat split.
Qed.

End FanOutAll.

(** The project of [sampleHandler], without sync state, polled at the
    watermark of the samples. *)
Lemma queryAllChanges_returns_actionable_changes_witness :
  Forall (λ c, ∃ project, is_Some (projects sampleHandler !! project) ∧
               actionable (default sampleWatermark ((∅ : gmap string Z) !! project)) c)
    [mergedFresh] ∧
  instance (with_gc sampleHandler
              {| inner := {| pages := []; commentsOf := noComments |};
                 calls := [CallSetCookieAuth "o" "old-token";
                           CallQueryChanges (pageOptions sampleQuery 50 0)] |})
  = instance sampleHandler ∧
  projects (with_gc sampleHandler
              {| inner := {| pages := []; commentsOf := noComments |};
                 calls := [CallSetCookieAuth "o" "old-token";
                           CallQueryChanges (pageOptions sampleQuery 50 0)] |})
  = projects sampleHandler.
Proof.
  refine (queryAllChanges_returns_actionable_changes 2 sampleWatermark map_to_list ∅ 50
            sampleHandler [mergedFresh] _ _ _).
  - reflexivity.
  - vm_compute. reflexivity.
Defined.

(** The poll of the first project of [twoProjects] fails and the second
    project is polled all the same. *)
Lemma queryAllChanges_polls_each_project_witness :
  ∃ before rest result1 g1 changes e g2 result3,
    map_to_list (projects twoProjects) = before ++ ("ci-tools", None) :: rest ∧
    queryProjects 3 2000 {[ "release" := 1000; "ci-tools" := 1000 ]} 50 before []
      (gc twoProjects) = (Returns result1, g1) ∧
    handlerQueryChangesForProject 3 "ci-tools"
      (default 2000 (({[ "release" := 1000; "ci-tools" := 1000 ]} : gmap string Z)
                       !! "ci-tools")) 50
      (queryStringsFromQueryFilter None) g1 = (Returns (changes, e), g2) ∧
    (is_Some e → changes = []) ∧
    queryProjects 3 2000 {[ "release" := 1000; "ci-tools" := 1000 ]} 50 rest
      (result1 ++ changes) g2
      = (Returns (result1 ++ changes ++ result3),
         {| pages := []; commentsOf := noComments |}) ∧
    [mergedFresh] = result1 ++ changes ++ result3.
Proof.
  refine (queryAllChanges_polls_each_project 3 2000 map_to_list
            {[ "release" := 1000; "ci-tools" := 1000 ]} 50 twoProjects
            "ci-tools" None [mergedFresh]
            (with_gc twoProjects {| pages := []; commentsOf := noComments |}) _ _ _).
  - reflexivity.
  - reflexivity.
  - vm_compute. reflexivity.
Defined.

(** ** The registry, continued *)

Section RegistryFacts.
Context {G Env : Type} `{!Gerrit G}.
Implicit Types c : Client G Env.
Implicit Types hs : gmap string (gerritInstanceHandler G).
Implicit Types order : list (string * gmap string (option GerritQueryFilter)).

Lemma newClientHandlers_inr newGerritClient order hs hs' :
  NoDup order.*1 →
  newClientHandlers newGerritClient order hs = inr hs' →
  (∀ i, i ∈ order.*1 → ∃ g, newGerritClient i = inr g) ∧
  ∀ i, hs' !! i =
       match (list_to_map order : gmap _ _) !! i with
       | None => hs !! i
       | Some ps =>
           match newGerritClient i with
           | inr g => Some {| instance := i; projects := ps; gc := g |}
           | inl _ => None
           end
       end.
Proof.
  revert hs. induction order as [|[j ps] rest IH]; intros hs Hnd; simpl.
  { intros [= <-]. split; [|done]. by intros i ?%elem_of_nil. }
  apply NoDup_cons in Hnd as [Hj Hnd].
  destruct (newGerritClient j) as [e|g] eqn:Hnew; [done|].
  intros Hr. destruct (IH _ Hnd Hr) as [Hall Hl]. split.
  - intros i [->|Hi]%elem_of_cons; [by eexists|by apply Hall].
  - intros i. rewrite Hl. destruct (decide (i = j)) as [->|Hij].
    + rewrite lookup_insert_eq, Hnew.
      by rewrite (not_elem_of_list_to_map_1 _ _ Hj), lookup_insert_eq.
    + rewrite !lookup_insert_ne by done.
      by destruct (list_to_map rest !! i).
Qed.

Lemma newClientHandlers_inl newGerritClient order hs err :
  newClientHandlers newGerritClient order hs = inl err →
  ∃ i, i ∈ order.*1 ∧ newGerritClient i = inl err.
Proof.
  revert hs. induction order as [|[j ps] rest IH]; intros hs; simpl; [done|].
  destruct (newGerritClient j) as [e|g] eqn:Hnew.
  - intros [= <-]. exists j. split; [by left|done].
  - intros Hr. destruct (IH _ Hr) as (i & Hi & He). exists i. split; [by right|done].
Qed.

Lemma newClientHandlers_all newGerritClient order hs :
  (∀ i, i ∈ order.*1 → ∃ g, newGerritClient i = inr g) →
  ∃ hs', newClientHandlers newGerritClient order hs = inr hs'.
Proof.
  revert hs. induction order as [|[j ps] rest IH]; intros hs Hall; simpl; [by eexists|].
  destruct (Hall j) as [g ->]; [by left|]. apply IH. intros i Hi. apply Hall. by right.
Qed.

(** [NewClient] makes a registry exactly when a gerrit client can be made
    for every instance, and returns otherwise the error of one of the
    instances, without registry.  The registry it makes has, for each
    instance, a handler with the name and the projects of the instance,
    stored under that name, no account, no authentication function and the
    empty token. *)
Theorem NewClient_all_or_nothing newGerritClient instances order :
  order ≡ₚ map_to_list instances →
  ((∀ i, is_Some (instances !! i) → ∃ g, newGerritClient i = inr g) →
   ∃ c, NewClient (Env := Env) newGerritClient order = inr c ∧
        (∀ i ps g, instances !! i = Some ps → newGerritClient i = inr g →
                   handlers c !! i = Some {| instance := i; projects := ps; gc := g |}) ∧
        (∀ i, instances !! i = None → handlers c !! i = None) ∧
        handlersNamed (handlers c) ∧
        accounts c = ∅ ∧ authentication c = None ∧ previousToken c = EmptyString) ∧
  (∀ i e, is_Some (instances !! i) → newGerritClient i = inl e →
     ∃ e', NewClient (Env := Env) newGerritClient order = inl e' ∧
           ∃ j, is_Some (instances !! j) ∧ newGerritClient j = inl e').
Proof.
  intros Hperm.
  assert (NoDup order.*1) as Hnd.
  { rewrite Hperm. apply NoDup_fst_map_to_list. }
  assert ((list_to_map order : gmap _ _) = instances) as Hmap.
  { rewrite (list_to_map_proper _ _ Hnd Hperm). apply list_to_map_to_list. }
  assert (∀ i, i ∈ order.*1 ↔ is_Some (instances !! i)) as Hdom.
  { intros i. rewrite Hperm. rewrite <- elem_of_dom, dom_alt.
    by rewrite elem_of_list_to_set. }
  unfold NewClient. split.
  - intros Hall.
    destruct (newClientHandlers_all newGerritClient order ∅) as [hs Hhs].
    { intros i Hi. apply Hall. by apply Hdom. }
    rewrite Hhs. destruct (newClientHandlers_inr _ _ _ _ Hnd Hhs) as [_ Hl].
    rewrite Hmap in Hl. eexists. split; [done|]. simpl.
    split; [|split; [|split; [|done]]].
    + intros i ps g Hi Hg. by rewrite Hl, Hi, Hg.
    + intros i Hi. by rewrite Hl, Hi, lookup_empty.
    + intros i h. rewrite Hl. destruct (instances !! i) as [ps|]; [|by rewrite lookup_empty].
      destruct (newGerritClient i); [done|]. by intros [= <-].
  - intros i e Hi He.
    destruct (newClientHandlers newGerritClient order ∅) as [e'|hs] eqn:Hhs.
    + exists e'. split; [done|].
      destruct (newClientHandlers_inl _ _ _ _ Hhs) as (j & Hj & Hje).
      exists j. split; [by apply Hdom|done].
    + destruct (newClientHandlers_inr _ _ _ _ Hnd Hhs) as [Hall _].
      destruct (Hall i) as [g Hg]; [by apply Hdom|]. congruence.
Qed.

(** The operations of the registry keep every handler stored under its own
    name. *)
Theorem registry_keeps_handlers_named c :
  handlersNamed (handlers c) →
  (∀ order c' err, UpdateClients order c = (c', err) → handlersNamed (handlers c')) ∧
  (∀ env c', authenticateOnce env c = Some c' → handlersNamed (handlers c')) ∧
  (∀ fuel timeNow range inst lastState rateLimit r c',
     QueryChangesForInstance fuel timeNow range inst lastState rateLimit c = (r, c') →
     handlersNamed (handlers c')) ∧
  (∀ fuel inst project lastUpdate rateLimit additionalFilters r c',
     QueryChangesForProject fuel inst project lastUpdate rateLimit additionalFilters c
       = (r, c') →
     handlersNamed (handlers c')).
Proof.
  intros Hnamed. split; [|split; [|split]].
  - intros order c' err. unfold UpdateClients.
    destruct (updateHandlers order (handlers c) ∅ []) as [new errs] eqn:Hu.
    intros [= <- <-]. simpl.
    assert (∀ acc errs0 new0 errs1,
              handlersNamed acc →
              updateHandlers order (handlers c) acc errs0 = (new0, errs1) →
              handlersNamed new0) as Hgen.
    { clear Hu. induction order as [|[j ps] rest IH]; intros acc errs0 new0 errs1 Hacc;
        simpl.
      { by intros [= <- <-]. }
      destruct (handlers c !! j) as [h|] eqn:Hh.
      - apply IH. intros i h'. destruct (decide (i = j)) as [->|Hij].
        + rewrite lookup_insert_eq. intros [= <-]. simpl. by apply Hnamed.
        + rewrite lookup_insert_ne by done. apply Hacc.
      - destruct (NewGerritClient j) as [e|g0]; [by apply IH|].
        apply IH. intros i h'. destruct (decide (i = j)) as [->|Hij].
        + rewrite lookup_insert_eq. by intros [= <-].
        + rewrite lookup_insert_ne by done. apply Hacc. }
    eapply Hgen; [|exact Hu]. by intros i h ?%lookup_empty_Some.
  - intros env c'. unfold authenticateOnce.
    destruct (authentication c) as [auth|]; [|done].
    destruct (auth env) as [current err].
    destruct (String.eqb current (previousToken c)); intros [= <-]; [done|].
    simpl. intros i h. rewrite lookup_fmap.
    destruct (handlers c !! i) as [h0|] eqn:Hh; [|done].
    intros [= <-]. simpl. by apply Hnamed.
  - intros fuel timeNow range inst lastState rateLimit r c'.
    unfold QueryChangesForInstance.
    destruct (handlers c !! inst) as [h|] eqn:Hh; [|by intros [= <- <-]].
    unfold queryAllChanges.
    destruct (queryProjects _ _ _ _ _ _ _) as [r0 g']. intros [= <- <-]. simpl.
    intros i h'. destruct (decide (i = inst)) as [->|Hij].
    + rewrite lookup_insert_eq. intros [= <-]. simpl. by apply Hnamed.
    + rewrite lookup_insert_ne by done. apply Hnamed.
  - intros fuel inst project lastUpdate rateLimit additionalFilters r c'.
    unfold QueryChangesForProject.
    destruct (handlers c !! inst) as [h|] eqn:Hh; [|by intros [= <- <-]].
    destruct (projects h !! project) as [f|]; [|by intros [= <- <-]].
    destruct (handlerQueryChangesForProject _ _ _ _ _ _) as [r0 g'].
    assert (handlersNamed (<[inst := with_gc h g']> (handlers c))) as Hn.
    { intros i h'. destruct (decide (i = inst)) as [->|Hij].
      - rewrite lookup_insert_eq. intros [= <-]. simpl. by apply Hnamed.
      - rewrite lookup_insert_ne by done. apply Hnamed. }
    destruct r0 as [[changes [e|]]|p|]; by intros [= <- <-].
Qed.

End RegistryFacts.

Section ReconfigurationFacts.
Context {G Env : Type} `{!Gerrit G}.
Implicit Types c : Client G Env.
Implicit Types order : list (string * gmap string (option GerritQueryFilter)).

Lemma UpdateClients_lookup instances order c c' err :
  order ≡ₚ map_to_list instances →
  UpdateClients order c = (c', err) →
  (∀ i, handlers c' !! i =
        match instances !! i with
        | None => None
        | Some ps =>
            match handlers c !! i with
            | Some h => Some (with_projects h ps)
            | None =>
                match NewGerritClient i with
                | inr g => Some {| instance := i; projects := ps; gc := g |}
                | inl _ => None
                end
            end
        end) ∧
  (err = None ↔
   ∀ i, is_Some (instances !! i) → handlers c !! i = None →
        ∃ g, NewGerritClient i = inr g) ∧
  accounts c' = accounts c ∧ authentication c' = authentication c ∧
  previousToken c' = previousToken c.
Proof.
  intros Hperm. unfold UpdateClients.
  destruct (updateHandlers order (handlers c) ∅ []) as [new errs] eqn:Hu.
  intros [= <- <-]. simpl.
  assert (NoDup order.*1) as Hnd.
  { rewrite Hperm. apply NoDup_fst_map_to_list. }
  assert ((list_to_map order : gmap _ _) = instances) as Hmap.
  { rewrite (list_to_map_proper _ _ Hnd Hperm). apply list_to_map_to_list. }
  assert (∀ i, i ∈ order.*1 ↔ is_Some (instances !! i)) as Hdom.
  { intros i. rewrite Hperm. rewrite <- elem_of_dom, dom_alt.
    by rewrite elem_of_list_to_set. }
  pose proof (updateHandlers_lookup _ _ _ _ _ _ Hnd Hu) as Hl. rewrite Hmap in Hl.
  destruct (updateHandlers_errors _ _ _ _ _ _ Hu) as (more & -> & Hmore). simpl.
  split; [|split; [|done]].
  - intros i. rewrite Hl. destruct (instances !! i); [|by rewrite lookup_empty].
    destruct (handlers c !! i); [done|].
    destruct (NewGerritClient i); [by rewrite lookup_empty|done].
  - split.
    + intros Hnone i Hi Hh. destruct (NewGerritClient i) as [e|g] eqn:Hn; [|by eexists].
      assert (e ∈ more) as He.
      { apply Hmore. exists i. split; [by apply Hdom|done]. }
      destruct more; [by apply elem_of_nil in He|done].
    + intros Hok. destruct more as [|e0 more']; [done|].
      destruct (proj1 (Hmore e0)) as (i & Hi & Hh & Hn); [by left|].
      apply Hdom in Hi. destruct (Hok i Hi Hh) as [g Hg]. congruence.
Qed.

(** Reconfiguring twice with the same desired map is reconfiguring once:
    the second [UpdateClients] leaves the registry as the first one made it,
    in whatever orders the two visit the map, and it returns an error
    exactly when the first one did. *)
Theorem UpdateClients_idempotent instances order1 order2 c c1 e1 c2 e2 :
  order1 ≡ₚ map_to_list instances →
  order2 ≡ₚ map_to_list instances →
  UpdateClients order1 c = (c1, e1) →
  UpdateClients order2 c1 = (c2, e2) →
  c2 = c1 ∧ (e2 = None ↔ e1 = None).
Proof.
  intros Hp1 Hp2 Hu1 Hu2.
  destruct (UpdateClients_lookup _ _ _ _ _ Hp1 Hu1) as (Hl1 & He1 & Ha1 & Hf1 & Ht1).
  destruct (UpdateClients_lookup _ _ _ _ _ Hp2 Hu2) as (Hl2 & He2 & Ha2 & Hf2 & Ht2).
  split.
  - assert (handlers c2 = handlers c1) as Hh.
    { apply map_eq. intros i. rewrite Hl2, Hl1.
      destruct (instances !! i) as [ps|]; [|done].
      destruct (handlers c !! i) as [h|]; [done|].
      by destruct (NewGerritClient i). }
    destruct c1, c2. simpl in *. by subst.
  - rewrite He1, He2. split.
    + intros H2 i Hi Hh. destruct (NewGerritClient i) as [e|g0] eqn:Hn; [|by eexists].
      destruct (H2 i Hi) as [g0 Hg]; [|congruence].
      rewrite Hl1. destruct Hi as [ps ->]. by rewrite Hh, Hn.
    + intros H1 i Hi Hh1. apply H1; [done|].
      rewrite Hl1 in Hh1. destruct Hi as [ps Hi]. rewrite Hi in Hh1.
      by destruct (handlers c !! i).
Qed.

End ReconfigurationFacts.

(** ** Credential rotation, continued *)

Section RotationFacts.
Context {G Env : Type} `{!Gerrit G}.
Implicit Types c : Client G Env.


(** A handler that [UpdateClients] makes for a new instance receives no
    credential from it, and none from the next tick of the rotation either
    when that tick reads the token that the registry remembers: the tick
    changes nothing, and the gateway of the new handler is as
    [gerrit.NewClient] made it. *)
Theorem new_handler_receives_no_credential
    instances order c c1 e1 i ps g env auth err :
  order ≡ₚ map_to_list instances →
  instances !! i = Some ps →
  handlers c !! i = None →
  NewGerritClient i = inr g →
  UpdateClients order c = (c1, e1) →
  authentication c = Some auth →
  auth env = (previousToken c, err) →
  authenticateOnce env c1 = Some c1 ∧
  handlers c1 !! i = Some {| instance := i; projects := ps; gc := g |}.
Proof.
  intros Hperm Hi Hh Hg Hu Ha Hr.
  destruct (UpdateClients_lookup _ _ _ _ _ Hperm Hu) as (Hl & _ & _ & Hf & Ht).
  split.
  - unfold authenticateOnce. by rewrite Hf, Ha, Hr, Ht, String.eqb_refl.
  - by rewrite Hl, Hi, Hh, Hg.
Qed.

End RotationFacts.


(** The handler made for ["gerrit.new"] has received no call at all after
    the reconfiguration and a tick that reads the remembered token. *)
Lemma new_handler_receives_no_credential_witness :
  ∃ c1,
    UpdateClients (map_to_list desiredInstances) steadyClient
      = (c1, Some (ErrAggregate [ErrGerrit "no instance given"])) ∧
    authenticateOnce () c1 = Some c1 ∧
    handlers c1 !! "gerrit.new"
      = Some {| instance := "gerrit.new"; projects := {[ "release" := None ]};
                gc := {| inner := {| pages := []; commentsOf := noComments |};
                         calls := [] |} |}.
Proof.
  eexists. split; [vm_compute; reflexivity|].
  refine (new_handler_receives_no_credential desiredInstances
            (map_to_list desiredInstances) steadyClient _
            (Some (ErrAggregate [ErrGerrit "no instance given"]))
            "gerrit.new" {[ "release" := None ]}
            {| inner := {| pages := []; commentsOf := noComments |}; calls := [] |}
            () steadyRead None _ _ _ _ _ _ _).
  - reflexivity.
  - reflexivity.
  - reflexivity.
  - reflexivity.
  - vm_compute. reflexivity.
  - reflexivity.
  - reflexivity.
Defined.

Lemma NewClient_all_or_nothing_witness :
  (∃ c, NewClient (Env := unit) (NewGerritClient (G := script))
          (map_to_list singleInstance) = inr c ∧
        (∀ i ps g, singleInstance !! i = Some ps →
                   NewGerritClient (G := script) i = inr g →
                   handlers c !! i = Some {| instance := i; projects := ps; gc := g |}) ∧
        (∀ i, singleInstance !! i = None → handlers c !! i = None) ∧
        handlersNamed (handlers c) ∧
        accounts c = ∅ ∧ authentication c = None ∧ previousToken c = EmptyString) ∧
  (∃ e', NewClient (Env := unit) (NewGerritClient (G := script))
           (map_to_list desiredInstances) = inl e' ∧
         ∃ j, is_Some (desiredInstances !! j) ∧
              NewGerritClient (G := script) j = inl e').
Proof.
  split.
  - apply (proj1 (NewClient_all_or_nothing (Env := unit) (NewGerritClient (G := script))
                    singleInstance (map_to_list singleInstance) (reflexivity _))).
    intros i [ps Hi]. unfold singleInstance in Hi.
    apply lookup_singleton_Some in Hi as [<- _]. by eexists.
  - apply (proj2 (NewClient_all_or_nothing (Env := unit) (NewGerritClient (G := script))
                    desiredInstances (map_to_list desiredInstances) (reflexivity _))
             EmptyString (ErrGerrit "no instance given")).
    + by eexists.
    + reflexivity.
Defined.

Lemma sampleClient_named : handlersNamed (handlers sampleClient).
Proof.
  intros inst h Hh. unfold sampleClient in Hh. simpl in Hh.
  by apply lookup_singleton_Some in Hh as [<- <-].
Qed.

Lemma registry_keeps_handlers_named_witness :
  handlersNamed (handlers sampleClient) ∧
  (∀ order c' err,
     UpdateClients order sampleClient = (c', err) → handlersNamed (handlers c')) ∧
  (∀ env c', authenticateOnce env sampleClient = Some c' → handlersNamed (handlers c')) ∧
  (∀ fuel timeNow range inst lastState rateLimit r c',
     QueryChangesForInstance fuel timeNow range inst lastState rateLimit sampleClient
       = (r, c') →
     handlersNamed (handlers c')) ∧
  (∀ fuel inst project lastUpdate rateLimit additionalFilters r c',
     QueryChangesForProject fuel inst project lastUpdate rateLimit additionalFilters
       sampleClient = (r, c') →
     handlersNamed (handlers c')).
Proof.
  split; [exact sampleClient_named|].
  exact (registry_keeps_handlers_named sampleClient sampleClient_named).
Defined.

Lemma UpdateClients_idempotent_witness :
  reconciled = reconciled ∧
  (Some (ErrAggregate [ErrGerrit "no instance given"]) = None ↔
   Some (ErrAggregate [ErrGerrit "no instance given"]) = None).
Proof.
  refine (UpdateClients_idempotent desiredInstances (map_to_list desiredInstances)
            (map_to_list desiredInstances) twoInstances reconciled _ reconciled _
            _ _ _ _).
  - reflexivity.
  - reflexivity.
  - vm_compute. reflexivity.
  - vm_compute. reflexivity.
Defined.

(** ** The fan-out over the handlers *)

Section FanOutHandlers.
Context {G Env : Type} `{!Gerrit G}.
Implicit Types c : Client G Env.
Implicit Types hs : gmap string (gerritInstanceHandler G).
Implicit Types order : list (string * gerritInstanceHandler G).

Lemma queryAllChanges_handler fuel timeNow range lastState rateLimit
    (h : gerritInstanceHandler G) r h' :
  queryAllChanges fuel timeNow range lastState rateLimit h = (r, h') →
  instance h' = instance h ∧ projects h' = projects h.
Proof.
  unfold queryAllChanges. destruct (queryProjects _ _ _ _ _ _ _) as [r0 g'].
  by intros [= <- <-].
Qed.

Lemma queryHandlers_entries fuel now range lastState rateLimit k order result hs
    result' hs' :
  NoDup order.*1 →
  Forall (λ kh, instance kh.2 = kh.1) order →
  queryHandlers fuel now range lastState rateLimit k order result hs
    = (Returns result', hs') →
  (∀ inst, inst ∉ order.*1 →
           result' !! inst = result !! inst ∧ hs' !! inst = hs !! inst) ∧
  (∀ j inst h, order !! j = Some (inst, h) →
     ∃ changes h',
       queryAllChanges fuel (now (k + j)%nat) range (default ∅ (lastState !! inst))
         rateLimit h = (Returns changes, h') ∧
       result' !! inst = match changes with
                         | [] => result !! inst
                         | _ => Some (default [] (result !! inst) ++ changes)
                         end ∧
       hs' !! inst = Some h').
Proof.
  intros Hnd Hnamed. revert k result hs Hnd.
  induction Hnamed as [|[key h] rest Hkey _ IH]; intros k result hs Hnd; simpl.
  { intros [= <- <-]. split; [done|]. intros j inst h Hj. by rewrite lookup_nil in Hj. }
  simpl in Hkey. apply NoDup_cons in Hnd as [Hfresh Hnd].
  destruct (queryAllChanges fuel (now k) range (default ∅ (lastState !! instance h))
              rateLimit h) as [r h1] eqn:Hq.
  destruct r as [changes|p|]; [|done..].
  set (result1 := match changes with
                  | [] => result
                  | _ => <[instance h := default [] (result !! instance h) ++ changes]>
                           result
                  end).
  assert (queryHandlers fuel now range lastState rateLimit (S k) rest result1
            (<[key := h1]> hs) = (Returns result', hs') →
          (∀ inst, inst ∉ key :: rest.*1 →
             result' !! inst = result !! inst ∧ hs' !! inst = hs !! inst) ∧
          (∀ j inst h0, ((key, h) :: rest) !! j = Some (inst, h0) →
             ∃ changes0 h',
               queryAllChanges fuel (now (k + j)%nat) range
                 (default ∅ (lastState !! inst)) rateLimit h0 = (Returns changes0, h') ∧
               result' !! inst = match changes0 with
                                 | [] => result !! inst
                                 | _ => Some (default [] (result !! inst) ++ changes0)
                                 end ∧
               hs' !! inst = Some h')) as Hstep.
  { intros Hr. destruct (IH _ _ _ Hnd Hr) as [Hout Hin].
    assert (∀ inst, inst ≠ key → result1 !! inst = result !! inst) as Hother.
    { intros inst Hne. unfold result1. destruct changes; [done|].
      rewrite Hkey. by rewrite lookup_insert_ne. }
    split.
    - intros inst [Hne Hnot]%not_elem_of_cons.
      destruct (Hout inst Hnot) as [-> ->].
      split; [by apply Hother|by rewrite lookup_insert_ne].
    - intros [|j] inst h0; simpl.
      + intros [= <- <-]. exists changes, h1. rewrite Nat.add_0_r, <- Hkey.
        split; [done|]. destruct (Hout (instance h)) as [-> ->]; [by rewrite Hkey|].
        split; [|by rewrite Hkey, lookup_insert_eq].
        unfold result1. destruct changes; [done|]. by rewrite lookup_insert_eq.
      + intros Hj. destruct (Hin j inst h0 Hj) as (changes0 & h' & Hq0 & Hres & Hhs).
        exists changes0, h'. rewrite Nat.add_succ_r. split; [done|]. split; [|done].
        assert (inst ≠ key) as Hne.
        { intros ->. apply Hfresh. apply list_elem_of_fmap. exists (key, h0).
          split; [done|]. by eapply list_elem_of_lookup_2. }
        by rewrite Hres, (Hother inst Hne). }
  unfold result1 in Hstep. by destruct changes.
Qed.

(** [Client.QueryChanges] on a registry whose handlers are stored under
    their names: the result has an entry for an instance exactly when the
    poll of its handler returns changes, and the entry is what
    [QueryChangesForInstance] returns for that instance at the time that
    its poll read; an instance without changes has no entry.  The handlers
    are left as [QueryChangesForInstance] leaves them, stored under their
    names. *)
Theorem ClientQueryChanges_agrees_with_QueryChangesForInstance
    fuel now range rangeHandlers lastState rateLimit c result c' :
  handlersNamed (handlers c) →
  rangeHandlers (handlers c) ≡ₚ map_to_list (handlers c) →
  ClientQueryChanges fuel now range rangeHandlers lastState rateLimit c
    = (Returns result, c') →
  (∀ inst changes, result !! inst = Some changes →
                   changes ≠ [] ∧ is_Some (handlers c !! inst)) ∧
  (∀ inst, is_Some (handlers c !! inst) →
     ∃ k changes c1,
       (k < size (handlers c))%nat ∧
       QueryChangesForInstance fuel (now k) range inst lastState rateLimit c
         = (Returns changes, c1) ∧
       result !! inst = (if decide (changes = []) then None else Some changes) ∧
       handlers c' !! inst = handlers c1 !! inst) ∧
  handlersNamed (handlers c').
Proof.
  intros Hnamed Hperm. unfold ClientQueryChanges.
  destruct (queryHandlers fuel now range lastState rateLimit 0
              (rangeHandlers (handlers c)) ∅ (handlers c)) as [r hs] eqn:Hq.
  intros [= -> <-]. simpl.
  assert (NoDup (rangeHandlers (handlers c)).*1) as Hnd.
  { rewrite Hperm. apply NoDup_fst_map_to_list. }
  assert (∀ inst h, (inst, h) ∈ rangeHandlers (handlers c) ↔
                    handlers c !! inst = Some h) as Hmem.
  { intros inst h. rewrite Hperm. apply elem_of_map_to_list. }
  assert (Forall (λ kh, instance kh.2 = kh.1) (rangeHandlers (handlers c))) as Hord.
  { apply Forall_forall. intros [inst h] Hin. simpl. apply Hnamed. by apply Hmem. }
  destruct (queryHandlers_entries _ _ _ _ _ _ _ _ _ _ _ Hnd Hord Hq) as [Hout Hin].
  assert (∀ inst h, handlers c !! inst = Some h →
            ∃ k changes h',
              (k < size (handlers c))%nat ∧
              queryAllChanges fuel (now k) range (default ∅ (lastState !! inst))
                rateLimit h = (Returns changes, h') ∧
              result !! inst = (if decide (changes = []) then None else Some changes) ∧
              hs !! inst = Some h') as Hentry.
  { intros inst h Hh. apply Hmem in Hh.
    apply list_elem_of_lookup in Hh as [k Hk].
    destruct (Hin k inst h Hk) as (changes & h' & Hqa & Hres & Hhs).
    exists k, changes, h'. split.
    { apply lookup_lt_Some in Hk. rewrite Hperm in Hk.
      by rewrite length_map_to_list in Hk. }
    split; [done|]. split; [|done]. rewrite Hres, lookup_empty.
    by destruct changes. }
  split; [|split].
  - intros inst changes Hres.
    destruct (handlers c !! inst) as [h|] eqn:Hh.
    + destruct (Hentry inst h Hh) as (k & changes0 & h' & _ & _ & Hres0 & _).
      rewrite Hres0 in Hres. destruct (decide (changes0 = [])); [done|].
      inversion Hres; subst. split; [done|by eexists].
    + destruct (Hout inst) as [Hr _].
      { intros ([i h0] & -> & Hi)%list_elem_of_fmap. apply Hmem in Hi. simpl in Hh.
        congruence. }
      by rewrite Hr, lookup_empty in Hres.
  - intros inst [h Hh].
    destruct (Hentry inst h Hh) as (k & changes & h' & Hk & Hqa & Hres & Hhs).
    exists k, changes, (with_handlers c (<[inst := h']> (handlers c))).
    split; [done|]. split; [|split; [done|]].
    + unfold QueryChangesForInstance. by rewrite Hh, Hqa.
    + simpl. by rewrite lookup_insert_eq.
  - intros inst h' Hh'.
    destruct (handlers c !! inst) as [h|] eqn:Hh.
    + destruct (Hentry inst h Hh) as (k & changes & h1 & _ & Hqa & _ & Hhs).
      rewrite Hhs in Hh'. inversion Hh'; subst h1.
      apply queryAllChanges_handler in Hqa as [-> _]. by apply Hnamed.
    + destruct (Hout inst) as [_ Hr].
      { intros ([i h0] & -> & Hi)%list_elem_of_fmap. apply Hmem in Hi. simpl in Hh.
        congruence. }
      rewrite Hr in Hh'. congruence.
Qed.

End FanOutHandlers.

Lemma ClientQueryChanges_agrees_with_QueryChangesForInstance_witness :
  (∀ inst changes,
     ({[ "gerrit.example" := [mergedFresh] ]} : gmap string (list ChangeInfo)) !! inst
       = Some changes →
     changes ≠ [] ∧ is_Some (handlers sampleClient !! inst)) ∧
  (∀ inst, is_Some (handlers sampleClient !! inst) →
     ∃ k changes c1,
       (k < size (handlers sampleClient))%nat ∧
       QueryChangesForInstance 2 ((λ _, sampleWatermark) k) map_to_list inst ∅ 50
         sampleClient = (Returns changes, c1) ∧
       ({[ "gerrit.example" := [mergedFresh] ]} : gmap string (list ChangeInfo)) !! inst
         = (if decide (changes = []) then None else Some changes) ∧
       handlers polledClient !! inst = handlers c1 !! inst) ∧
  handlersNamed (handlers polledClient).
Proof.
  refine (ClientQueryChanges_agrees_with_QueryChangesForInstance 2
            (λ _, sampleWatermark) map_to_list map_to_list ∅ 50 sampleClient
            {[ "gerrit.example" := [mergedFresh] ]} polledClient
            sampleClient_named _ _).
  - reflexivity.
  - vm_compute. reflexivity.
Defined.

(** ** The targeted operations *)

Section TargetedFacts.
Context {G Env : Type} `{!Gerrit G} `{!GerritServices G}.
Implicit Types c : Client G Env.

(** The account of an instance is asked for once.  After [Account] returned
    an account, [Account] returns it again without any call and without
    looking for a handler: also after a tick of the credential rotation,
    and after a reconfiguration, even one that drops the instance.  A
    failed [Account] leaves the accounts as they are. *)
Theorem Account_is_cached inst c r c1 :
  Account inst c = (r, c1) →
  (∀ a, r = (Some a, None) →
     Account inst c1 = ((Some a, None), c1) ∧
     (∀ env c2, authenticateOnce env c1 = Some c2 →
                Account inst c2 = ((Some a, None), c2)) ∧
     (∀ order c2 err, UpdateClients order c1 = (c2, err) →
                      Account inst c2 = ((Some a, None), c2))) ∧
  (∀ e, r = (None, Some e) → accounts c1 = accounts c).
Proof.
  intros Hacc.
  assert (∀ a, r = (Some a, None) → accounts c1 !! inst = Some a) as Hcached.
  { intros a ->. revert Hacc. unfold Account.
    destruct (accounts c !! inst) as [existing|] eqn:Hex.
    { by intros [= <- <-]. }
    destruct (handlers c !! inst) as [h|]; [|done].
    destruct (GetAccount "self" (gc h)) as [[[self resp] err] g'].
    destruct err; [done|]. intros [= <- <-]. simpl. by rewrite lookup_insert_eq. }
  assert (∀ a c2, accounts c2 !! inst = Some a →
                  Account inst c2 = ((Some a, None), c2)) as Hhit.
  { intros a c2 Ha. unfold Account. by rewrite Ha. }
  split.
  - intros a Hr. specialize (Hcached a Hr). split; [by apply Hhit|]. split.
    + intros env c2. unfold authenticateOnce.
      destruct (authentication c1) as [auth|]; [|done].
      destruct (auth env) as [current err].
      destruct (String.eqb current (previousToken c1)); intros [= <-]; by apply Hhit.
    + intros order c2 err. unfold UpdateClients.
      destruct (updateHandlers order (handlers c1) ∅ []) as [new errs].
      intros [= <- <-]. by apply Hhit.
  - intros e ->. revert Hacc. unfold Account.
    destruct (accounts c !! inst) as [existing|]; [done|].
    destruct (handlers c !! inst) as [h|]; [|by intros [= <- <-]].
    destruct (GetAccount "self" (gc h)) as [[[self resp] err] g'].
    destruct err; [|done]. by intros [= <- <-].
Qed.


(** None of [GetChange], [ChangeExist], [SetReview] and
    [GetBranchRevision] changes the accounts, the token, the
    authentication function, or the name and the projects of a handler, and
    none looks at the accounts.  For an instance without handler each
    returns the not-activated error and leaves the registry as it is. *)
Theorem targeted_operations_frame inst c :
  (∀ id, sameRegistry c (ClientGetChange inst id c).2 ∧
         sameRegistry c (ChangeExist inst id c).2) ∧
  (∀ id revision message labels,
     sameRegistry c (ClientSetReview inst id revision message labels c).2) ∧
  (∀ project branch, sameRegistry c (GetBranchRevision inst project branch c).2) ∧
  (handlers c !! inst = None →
   (∀ id, ClientGetChange inst id c = ((None, Some (ErrNotActivated inst)), c) ∧
          ChangeExist inst id c = (Done (false, Some (ErrNotActivated inst)), c)) ∧
   (∀ id revision message labels,
      ClientSetReview inst id revision message labels c
      = (Some (ErrNotActivated inst), c)) ∧
   (∀ project branch,
      GetBranchRevision inst project branch c
      = (Done (EmptyString, Some (ErrNotActivated inst)), c))).
Proof.
  assert (sameRegistry c c) as Hc by done.
  assert (∀ h g', handlers c !! inst = Some h → sameRegistry c (with_gateway c inst h g'))
    as Hg.
  { intros h g' Hh. unfold sameRegistry. simpl. repeat split; try done.
    - intros i. destruct (decide (i = inst)) as [->|Hne].
      + by rewrite lookup_insert_eq, Hh.
      + by rewrite lookup_insert_ne.
    - intros i. destruct (decide (i = inst)) as [->|Hne].
      + by rewrite lookup_insert_eq, Hh.
      + by rewrite lookup_insert_ne. }
  split; [|split; [|split]].
  - intros id. unfold ClientGetChange, ChangeExist.
    destruct (handlers c !! inst) as [h|] eqn:Hh; [|done].
    destruct (GetChange id (gc h)) as [[[info resp] err] g'].
    destruct err as [e|]; [|by split; apply Hg].
    split; [by apply Hg|]. destruct resp as [[r|]|]; [|by apply Hg..].
    destruct (StatusCode r =? 404); by apply Hg.
  - intros id revision message labels. unfold ClientSetReview.
    destruct (handlers c !! inst) as [h|] eqn:Hh; [|done].
    destruct (SetReview id revision _ (gc h)) as [[resp err] g'].
    destruct err; by apply Hg.
  - intros project branch. unfold GetBranchRevision.
    destruct (handlers c !! inst) as [h|] eqn:Hh; [|done].
    destruct (GetBranch project branch (gc h)) as [[[res resp] err] g'].
    destruct err; [by apply Hg|]. destruct res; by apply Hg.
  - intros Hnone. unfold ClientGetChange, ChangeExist, ClientSetReview, GetBranchRevision.
    by rewrite Hnone.
Qed.

End TargetedFacts.

Lemma Account_is_cached_witness :
  ∃ c1,
    Account "gerrit.example" serverClient = ((Some "prow-bot", None), c1) ∧
    (∀ a, (Some "prow-bot", @None clientError) = (Some a, None) →
       Account "gerrit.example" c1 = ((Some a, None), c1) ∧
       (∀ env c2, authenticateOnce env c1 = Some c2 →
                  Account "gerrit.example" c2 = ((Some a, None), c2)) ∧
       (∀ order c2 err, UpdateClients order c1 = (c2, err) →
                        Account "gerrit.example" c2 = ((Some a, None), c2))) ∧
    (∀ e, (Some "prow-bot", @None clientError) = (None, Some e) →
          accounts c1 = accounts serverClient).
Proof.
  eexists. split; [reflexivity|].
  apply (Account_is_cached "gerrit.example" serverClient). reflexivity.
Defined.

(** On [serverClient]: a change that the instance knows, one that it does
    not know, and an instance out of reach. *)
Example ChangeExist_samples :
  (ChangeExist "gerrit.example" "merged-fresh" serverClient).1 = Done (true, None) ∧
  (ChangeExist "gerrit.example" "unknown" serverClient).1 = Done (false, None) ∧
  (ClientGetChange "gerrit.example" "unknown" serverClient).1
    = (None, Some (ErrGettingChange (ErrResponseBody (ErrGerrit "404") "Not found"))) ∧
  (ChangeExist "gerrit.down" "merged-fresh" serverClient).1 = NilDereference ∧
  (ClientGetChange "gerrit.down" "merged-fresh" serverClient).1
    = (None, Some (ErrGettingChange unreachable)).
Proof. by vm_compute. Qed.


Lemma targeted_operations_frame_witness :
  (∀ id, ClientGetChange "gerrit.elsewhere" id serverClient
         = ((None, Some (ErrNotActivated "gerrit.elsewhere")), serverClient) ∧
         ChangeExist "gerrit.elsewhere" id serverClient
         = (Done (false, Some (ErrNotActivated "gerrit.elsewhere")), serverClient)) ∧
  (∀ id revision message labels,
     ClientSetReview "gerrit.elsewhere" id revision message labels serverClient
     = (Some (ErrNotActivated "gerrit.elsewhere"), serverClient)) ∧
  (∀ project branch,
     GetBranchRevision "gerrit.elsewhere" project branch serverClient
     = (Done (EmptyString, Some (ErrNotActivated "gerrit.elsewhere")), serverClient)).
Proof.
  apply (targeted_operations_frame "gerrit.elsewhere" serverClient). reflexivity.
Defined.

(** ** The projects flag *)

Lemma Split_nonempty sep s : Split sep s ≠ [].
Proof.
  destruct s as [|a s]; simpl; [done|].
  destruct (Ascii.eqb a sep); [done|]. by destruct (Split sep s).
Qed.

Lemma Split_no_sep sep s : hasByte sep s = false → Split sep s = [s].
Proof.
  induction s as [|a s IH]; simpl; [done|].
  intros [Ha Hs]%orb_false_iff. rewrite Ha, (IH Hs). done.
Qed.

Lemma Split_app sep x y :
  hasByte sep x = false → Split sep (x +:+ String sep y) = x :: Split sep y.
Proof.
  induction x as [|a x IH]; simpl.
  { intros _. by rewrite Ascii.eqb_refl. }
  intros [Ha Hx]%orb_false_iff. by rewrite Ha, (IH Hx).
Qed.

Lemma Split_concat sep parts :
  parts ≠ [] →
  Forall (λ r, hasByte sep r = false) parts →
  Split sep (String.concat (String sep EmptyString) parts) = parts.
Proof.
  intros Hne Hall. induction Hall as [|r parts Hr Hall IH]; [done|].
  destruct parts as [|r2 parts].
  { simpl. by apply Split_no_sep. }
  change (String.concat (String sep EmptyString) (r :: r2 :: parts))
    with (r +:+ String sep (String.concat (String sep EmptyString) (r2 :: parts))).
  rewrite Split_app by done. by rewrite IH.
Qed.

Lemma concat_Split sep s : String.concat (String sep EmptyString) (Split sep s) = s.
Proof.
  induction s as [|a s IH]; simpl; [done|].
  pose proof (Split_nonempty sep s) as Hne.
  destruct (Ascii.eqb_spec a sep) as [->|Hne'].
  - destruct (Split sep s) as [|x xs]; [done|]. simpl in *. by rewrite IH.
  - destruct (Split sep s) as [|x xs]; [done|]. destruct xs as [|x2 xs].
    + simpl in *. by rewrite IH.
    + change (String.concat (String sep EmptyString) (String a x :: x2 :: xs))
        with (String a (String.concat (String sep EmptyString) (x :: x2 :: xs))).
      by rewrite IH.
Qed.

Lemma SplitN2_cases sep s :
  (hasByte sep s = false ∧ SplitN2 sep s = [s]) ∨
  (∃ x y, s = x +:+ String sep y ∧ hasByte sep x = false ∧ SplitN2 sep s = [x; y]).
Proof.
  induction s as [|a s IH]; simpl; [by left|].
  destruct (Ascii.eqb_spec a sep) as [->|Hne].
  { right. by exists EmptyString, s. }
  destruct IH as [[Hs ->]|(x & y & -> & Hx & ->)].
  - left. by rewrite Hs.
  - right. exists (String a x), y. simpl. split; [done|]. split; [|done].
    rewrite Hx. by destruct (Ascii.eqb_spec a sep).
Qed.

Lemma SplitN2_cut sep x y :
  hasByte sep x = false → SplitN2 sep (x +:+ String sep y) = [x; y].
Proof.
  induction x as [|a x IH]; simpl.
  { intros _. by rewrite Ascii.eqb_refl. }
  intros [Ha Hx]%orb_false_iff. by rewrite Ha, (IH Hx).
Qed.

(** Printing a flag with one host and parsing it back gives the host its
    repositories again, when the host has no [=], the repositories no [,]
    and there is at least one repository. *)
Theorem ProjectsFlag_Set_String_round_trip host repos p :
  hasByte "="%char host = false →
  repos ≠ [] →
  Forall (λ r, hasByte ","%char r = false) repos →
  p !! host = None →
  ProjectsFlag_Set (ProjectsFlag_String [(host, repos)]) p = (<[host := repos]> p, None).
Proof.
  intros Hhost Hne Hrepos Hp. unfold ProjectsFlag_Set, ProjectsFlag_String. simpl.
  change ("=" +:+ String.concat "," repos)
    with (String "="%char (String.concat "," repos)).
  rewrite SplitN2_cut by done. rewrite Hp.
  change "," with (String ","%char EmptyString). by rewrite Split_concat.
Qed.

(** What [ProjectsFlag.Set] does with any value.  It returns no error
    exactly for a value [host=repos] whose host, the text before the first
    [=], is not in the flag yet: the host then gets the pieces of [repos]
    between the commas, at least one, which joined by commas are [repos]
    again, and the other hosts keep theirs.  With an error the flag is left
    as it is: the value has no [=], or its host is in the flag already. *)
Theorem ProjectsFlag_Set_cases value p p' err :
  ProjectsFlag_Set value p = (p', err) →
  (err = None →
     ∃ host repos,
       value = host +:+ "=" +:+ repos ∧ hasByte "="%char host = false ∧
       p !! host = None ∧ p' = <[host := Split ","%char repos]> p ∧
       Split ","%char repos ≠ [] ∧
       String.concat "," (Split ","%char repos) = repos) ∧
  (∀ e, err = Some e →
     p' = p ∧
     ((e = ErrNotHostRepos value ∧ hasByte "="%char value = false) ∨
      (∃ host repos,
         value = host +:+ "=" +:+ repos ∧ hasByte "="%char host = false ∧
         e = ErrDuplicateHost host ∧ is_Some (p !! host)))).
Proof.
  unfold ProjectsFlag_Set.
  destruct (SplitN2_cases "="%char value) as [[Hno ->]|(host & repos & -> & Hhost & ->)].
  - intros [= <- <-]. split; [done|]. intros e [= <-]. split; [done|]. by left.
  - destruct (p !! host) as [old|] eqn:Hp.
    + intros [= <- <-]. split; [done|]. intros e [= <-]. split; [done|]. right.
      exists host, repos. by repeat split.
    + intros [= <- <-]. split; [|done]. intros _. exists host, repos.
      split; [done|]. split; [done|]. split; [done|]. split; [done|].
      split; [apply Split_nonempty|]. apply (concat_Split ","%char).
Qed.

Lemma ProjectsFlag_Set_String_round_trip_witness :
  ProjectsFlag_Set (ProjectsFlag_String [("gerrit.example", ["ci-tools"; "release"])]) ∅
  = (<["gerrit.example" := ["ci-tools"; "release"]]> ∅, None).
Proof.
  apply ProjectsFlag_Set_String_round_trip.
  - reflexivity.
  - discriminate.
  - repeat constructor.
  - reflexivity.
Defined.

(** A value that ends with its [=] gives the host one repository, with the
    empty name. *)
Example ProjectsFlag_Set_no_repos :
  ProjectsFlag_Set "gerrit.example=" ∅ = ({[ "gerrit.example" := [EmptyString] ]}, None).
Proof. reflexivity. Qed.

Lemma ProjectsFlag_Set_cases_witness :
  (@None flagError = None →
     ∃ host repos,
       "gerrit.example=ci-tools,release" = host +:+ "=" +:+ repos ∧
       hasByte "="%char host = false ∧
       (∅ : gmap string (list string)) !! host = None ∧
       {[ "gerrit.example" := ["ci-tools"; "release"] ]}
       = <[host := Split ","%char repos]> (∅ : gmap string (list string)) ∧
       Split ","%char repos ≠ [] ∧
       String.concat "," (Split ","%char repos) = repos) ∧
  (∀ e, None = Some e →
     {[ "gerrit.example" := ["ci-tools"; "release"] ]} = (∅ : gmap string (list string)) ∧
     ((e = ErrNotHostRepos "gerrit.example=ci-tools,release" ∧
       hasByte "="%char "gerrit.example=ci-tools,release" = false) ∨
      (∃ host repos,
         "gerrit.example=ci-tools,release" = host +:+ "=" +:+ repos ∧
         hasByte "="%char host = false ∧
         e = ErrDuplicateHost host ∧
         is_Some ((∅ : gmap string (list string)) !! host)))).
Proof.
  apply (ProjectsFlag_Set_cases "gerrit.example=ci-tools,release" ∅).
  reflexivity.
Defined.

(** ** Maps built by loops *)

Section Loops.
Context {V W : Type}.

Lemma foldl_insert_lookup (f : V → W) (l : list (string * V)) (acc : gmap string W) i :
  NoDup l.*1 →
  foldl (λ m (kv : string * V), <[kv.1 := f kv.2]> m) acc l !! i
  = match (list_to_map l : gmap string V) !! i with
    | Some v => Some (f v)
    | None => acc !! i
    end.
Proof.
  revert acc. induction l as [|[k v] l IH]; intros acc Hnd; simpl; [done|].
  apply NoDup_cons in Hnd as [Hk Hnd]. rewrite (IH _ Hnd).
  destruct (decide (i = k)) as [->|Hne].
  - rewrite lookup_insert_eq, (not_elem_of_list_to_map_1 _ _ Hk).
    by rewrite lookup_insert_eq.
  - rewrite !lookup_insert_ne by done. done.
Qed.

Lemma foldl_insert_keys (w : W) (ks : list string) (acc : gmap string W) i :
  foldl (λ m k, <[k := w]> m) acc ks !! i
  = if decide (i ∈ ks) then Some w else acc !! i.
Proof.
  revert acc. induction ks as [|k ks IH]; intros acc; simpl.
  { destruct (decide (i ∈ [])) as [Hin|_]; [by apply elem_of_nil in Hin|done]. }
  rewrite IH.
  destruct (decide (i ∈ ks)) as [Hin|Hnot], (decide (i ∈ k :: ks)) as [Hin'|Hnot'].
  - done.
  - destruct Hnot'. by right.
  - apply elem_of_cons in Hin' as [->|?]; [|done]. by rewrite lookup_insert_eq.
  - rewrite lookup_insert_ne; [done|]. intros ->. apply Hnot'. by left.
Qed.

End Loops.

(** The configuration made from a projects flag has the hosts of the flag,
    and for each host exactly the projects that the flag lists for it, each
    without branch filter, in whatever order the hosts are visited. *)
Theorem ProjectsFlagToConfig_lookup (p : gmap string (list string)) order host :
  order ≡ₚ map_to_list p →
  (∀ listed, p !! host = Some listed →
     ∃ watched, ProjectsFlagToConfig order !! host = Some watched ∧
       ∀ project, watched !! project
                  = if decide (project ∈ listed) then Some None else None) ∧
  (p !! host = None → ProjectsFlagToConfig order !! host = None).
Proof.
  intros Hperm.
  assert (NoDup order.*1) as Hnd.
  { rewrite Hperm. apply NoDup_fst_map_to_list. }
  assert ((list_to_map order : gmap _ _) = p) as Hmap.
  { rewrite (list_to_map_proper _ _ Hnd Hperm). apply list_to_map_to_list. }
  unfold ProjectsFlagToConfig.
  rewrite (foldl_insert_lookup
             (λ projects, foldl (λ m project, <[project := None]> m) ∅ projects)
             order ∅ host Hnd).
  rewrite Hmap. split.
  - intros listed ->. eexists. split; [done|]. intros project.
    rewrite (foldl_insert_keys (None : option GerritQueryFilter)).
    by rewrite lookup_empty.
  - intros ->. apply lookup_empty.
Qed.

Lemma ProjectsFlagToConfig_lookup_witness :
  ∃ watched,
    ProjectsFlagToConfig
      (map_to_list ({[ "gerrit.example" := ["ci-tools"; "release"] ]}
                      : gmap string (list string))) !! "gerrit.example"
      = Some watched ∧
    ∀ project, watched !! project
               = if decide (project ∈ ["ci-tools"; "release"]) then Some None else None.
Proof.
  apply (proj1 (ProjectsFlagToConfig_lookup
                  {[ "gerrit.example" := ["ci-tools"; "release"] ]}
                  (map_to_list {[ "gerrit.example" := ["ci-tools"; "release"] ]})
                  "gerrit.example" (reflexivity _))).
  reflexivity.
Defined.

(** [DeepCopy] returns a sync state equal to the one it copies, in whatever
    order the hosts and the projects are visited. *)
Theorem DeepCopy_equal (l : gmap string (gmap string Z)) range order :
  order ≡ₚ map_to_list l →
  (∀ lastSyncs, range lastSyncs ≡ₚ map_to_list lastSyncs) →
  DeepCopy range order = l.
Proof.
  intros Hperm Hrange.
  assert (NoDup order.*1) as Hnd.
  { rewrite Hperm. apply NoDup_fst_map_to_list. }
  assert ((list_to_map order : gmap _ _) = l) as Hmap.
  { rewrite (list_to_map_proper _ _ Hnd Hperm). apply list_to_map_to_list. }
  apply map_eq. intros host. unfold DeepCopy.
  rewrite (foldl_insert_lookup
             (λ lastSyncs,
                foldl (λ m (pt : string * Z), <[pt.1 := pt.2]> m) ∅ (range lastSyncs))
             order ∅ host Hnd).
  rewrite Hmap. destruct (l !! host) as [lastSyncs|]; [|apply lookup_empty].
  f_equal. apply map_eq. intros project.
  assert (NoDup (range lastSyncs).*1) as Hnd'.
  { rewrite Hrange. apply NoDup_fst_map_to_list. }
  rewrite (foldl_insert_lookup (λ t : Z, t) (range lastSyncs) ∅ project Hnd').
  rewrite (list_to_map_proper _ _ Hnd' (Hrange lastSyncs)), list_to_map_to_list.
  destruct (lastSyncs !! project); [done|apply lookup_empty].
Qed.

Lemma DeepCopy_equal_witness :
  DeepCopy map_to_list
    (map_to_list ({[ "gerrit.example" := {[ "ci-tools" := 1000; "release" := 990 ]} ]}
                    : gmap string (gmap string Z)))
  = {[ "gerrit.example" := {[ "ci-tools" := 1000; "release" := 990 ]} ]}.
Proof.
  apply DeepCopy_equal.
  - reflexivity.
  - intros lastSyncs. reflexivity.
Defined.
